(** * The bounded semantic context store of terminal-gpt (src/context.ts)

    A shallow embedding of the vector store that remembers conversation
    turns under a token budget, and of the three exported functions
    [addContext], [getContext] and [clearContext].

    The two libraries the module calls are kept apart from it:
    - the tiktoken encoder is an interface ([Encoder]);
    - the hnswlib index is an interface ([HierarchicalNSW]) together with
      the part of its contract the store relies on ([HierarchicalNSWLaws]).
    Module [Reference] instantiates both (a byte-level tokenizer and an
    exact cosine scan) so that every statement can be run on concrete
    conversations. *)

From Stdlib Require Import ZArith String Ascii List Lia PrimFloat Uint63.
From Stdlib Require Import SpecFloat FloatOps FloatAxioms.
From stdpp Require Import base tactics option list strings.

Local Open Scope Z_scope.
Local Open Scope nat_scope.
Local Open Scope string_scope.
Local Open Scope list_scope.

(** ** JavaScript values and completions *)

(** The values a [content] field can hold at run time.  The TypeScript type
    says [string]; [addItem] checks it again with [typeof]. *)
Inductive Value : Type :=
| VUndefined
| VNull
| VBoolean (b : bool)
| VNumber (z : Z)
| VString (s : string).

#[global] Instance Value_eq_dec : EqDecision Value.
Proof. solve_decision. Defined.

(** [typeof v] *)
Definition typeof (v : Value) : string :=
  match v with
  | VUndefined => "undefined"
  | VNull => "object"
  | VBoolean _ => "boolean"
  | VNumber _ => "number"
  | VString _ => "string"
  end.

(** [a === b] on these values. *)
Definition strict_eq (a b : Value) : bool := bool_decide (a = b).

(** [interface ContextItem { role: string; content: string }] *)
Record ContextItem : Type := mkItem { role : string; content : Value }.

#[global] Instance ContextItem_eq_dec : EqDecision ContextItem.
Proof. solve_decision. Defined.

(** How a call ends: it returns a value or it throws. *)
Inductive completion (A : Type) : Type :=
| Normal (a : A)
| Throw (e : string).
Arguments Normal {A} a.
Arguments Throw {A} e.

(** [try { body } catch (error) { handler }] for a body without state. *)
Definition try_catch {A} (body : completion A) (handler : string -> completion A)
  : completion A :=
  match body with
  | Normal a => Normal a
  | Throw e => handler e
  end.

(** State and exceptions: a computation over a store [S] returns a
    completion and the store it leaves behind (also when it throws). *)
Definition M (S A : Type) : Type := S -> completion A * S.

Definition ret {S A} (a : A) : M S A := fun s => (Normal a, s).
Definition throw {S A} (e : string) : M S A := fun s => (Throw e, s).
Definition bind {S A B} (m : M S A) (k : A -> M S B) : M S B :=
  fun s => match m s with
           | (Normal a, s') => k a s'
           | (Throw e, s') => (Throw e, s')
           end.
Definition get {S} : M S S := fun s => (Normal s, s).
Definition lift {S A} (c : completion A) : M S A := fun s => (c, s).
Definition try_catchM {S A} (body : M S A) (handler : string -> M S A) : M S A :=
  fun s => match body s with
           | (Normal a, s') => (Normal a, s')
           | (Throw e, s') => handler e s'
           end.

Notation "'let!' x ':=' m 'in' k" := (bind m (fun x => k))
  (at level 10, x name, m at level 100, k at level 200).
Notation "'do!' m 'in' k" := (bind m (fun _ => k))
  (at level 10, m at level 100, k at level 200).

(** ** The index library (hnswlib-node) *)

(** What the store uses of [hnswlib.HierarchicalNSW]: construction with
    [initIndex], [addPoint] and [searchKnn]; [None] stands for a thrown
    error.  [getIdsList] and [getMaxElements] are the library's own
    observers; the store never calls them, the contract below is stated
    with them. *)
Class HierarchicalNSW : Type := {
  index_t : Type;
  initIndex : nat -> nat -> index_t;
  addPoint : index_t -> list float -> nat -> option index_t;
  searchKnn : index_t -> list float -> nat -> option (list nat);
  getIdsList : index_t -> list nat;
  getMaxElements : index_t -> nat
}.

(** The contract of the index: a new label is refused exactly when the
    declared capacity is reached, a known label is always accepted (its
    point is updated), and a search returns at most [k] of the labels. *)
Class HierarchicalNSWLaws (I : HierarchicalNSW) : Prop := {
  init_ids : forall dim n, getIdsList (initIndex dim n) = [];
  init_max : forall dim n, getMaxElements (initIndex dim n) = n;
  add_known : forall idx v l,
      l ∈ getIdsList idx -> is_Some (addPoint idx v l);
  add_room : forall idx v l,
      length (getIdsList idx) < getMaxElements idx -> is_Some (addPoint idx v l);
  add_full : forall idx v l,
      l ∉ getIdsList idx -> getMaxElements idx <= length (getIdsList idx) ->
      addPoint idx v l = None;
  add_ids : forall idx v l idx',
      addPoint idx v l = Some idx' ->
      forall l', l' ∈ getIdsList idx' <-> l' = l \/ l' ∈ getIdsList idx;
  add_ids_new : forall idx v l idx',
      addPoint idx v l = Some idx' -> l ∉ getIdsList idx ->
      length (getIdsList idx') = S (length (getIdsList idx));
  add_max : forall idx v l idx',
      addPoint idx v l = Some idx' -> getMaxElements idx' = getMaxElements idx;
  search_length : forall idx q k r,
      searchKnn idx q k = Some r -> length r <= k;
  search_ids : forall idx q k r,
      searchKnn idx q k = Some r -> forall l, l ∈ r -> l ∈ getIdsList idx
}.

(** ** The tokenizer (tiktoken) *)

(** [encoder.encode] of the encoder that [encoding_for_model] returns: the
    token ids of a text, or [None] when the call throws. *)
Class Encoder : Type := encode : Value -> option (list Z).

(** ** Numbers *)

(** What [token / 100] has to be, in the words of IEEE 754 and without the
    machine operations: the integer [t] and the integer 100, each rounded
    to binary64, then divided and rounded to binary64, on the specification
    floats of the standard library. *)
Definition token_over_100 (t : Z) : spec_float :=
  SF64div (binary_normalize prec emax t 0 false)
          (binary_normalize prec emax 100 0 false).

(** ** The vector store *)

Section VectorStore.

Context {E : Encoder} {I : HierarchicalNSW}.

(** [const dimension: number = 1536] *)
Definition dimension : nat := 1536.

(** A token id (an entry of a [Uint32Array]) as a JavaScript number. *)
Definition number_of_token (t : Z) : float := PrimFloat.of_uint63 (Uint63.of_Z t).

(** [encoded[i] / 100] *)
Definition normalized (encoded : list Z) (i : nat) : float :=
  PrimFloat.div (number_of_token (default 0%Z (encoded !! i))) 100%float.

(** The body of the loop of [textToVector]:
    [for (i = 0; i < encoded.length && i < dimension; i++) vector[i] = encoded[i] / 100]. *)
Definition fill (encoded : list Z) (vector : list float) : list float :=
  foldl (fun vector i => <[i := normalized encoded i]> vector) vector
        (seq 0 (Nat.min (length encoded) dimension)).

Definition textToVector (text : Value) : completion (list float) :=
  try_catch
    (match encode text with
     | None => Throw "encode"
     | Some encoded => Normal (fill encoded (replicate dimension 0%float))
     end)
    (fun _ => Throw "Failed to convert text to vector").

(** The closure state of one store: the index, [items], [currentTokens],
    and the [maxTokens] it was created with. *)
Record VectorStore : Type := mkStore {
  maxTokens : Z;
  index : index_t;
  items : list ContextItem;
  currentTokens : Z
}.

(** [createVectorStore(model, maxTokens)]: the index is initialised for
    1000 elements. *)
Definition createVectorStore (maxTokens : Z) : VectorStore :=
  {| maxTokens := maxTokens;
     index := initIndex dimension 1000;
     items := [];
     currentTokens := 0 |}.

(** [encoder.encode(text).length] *)
Definition tokenCount (text : Value) : Z :=
  match encode text with
  | Some encoded => Z.of_nat (length encoded)
  | None => 0
  end.

(** The eviction loop of [addItem] on [items] and [currentTokens]:
    [while (currentTokens + tokenCount > maxTokens && items.length > 0)]
    shift the oldest item and give back its tokens. *)
Fixpoint shift_while (maxTokens tokenCount : Z) (items : list ContextItem)
    (currentTokens : Z) : completion unit * (list ContextItem * Z) :=
  match items with
  | [] => (Normal tt, ([], currentTokens))
  | removedItem :: rest =>
      if (maxTokens <? currentTokens + tokenCount)%Z then
        match encode (content removedItem) with
        | Some encoded =>
            shift_while maxTokens tokenCount rest
                        (currentTokens - Z.of_nat (length encoded))%Z
        | None => (Throw "encode", (rest, currentTokens))
        end
      else (Normal tt, (items, currentTokens))
  end.

Definition evict (tokenCount : Z) : M VectorStore unit :=
  fun s =>
    let '(c, (items', currentTokens')) :=
      shift_while (maxTokens s) tokenCount (items s) (currentTokens s) in
    (c, {| maxTokens := maxTokens s; index := index s;
           items := items'; currentTokens := currentTokens' |}).

(** [index.addPoint(vector, id)] *)
Definition index_addPoint (vector : list float) (id : nat) : M VectorStore unit :=
  fun s =>
    match addPoint (index s) vector id with
    | Some index' =>
        (Normal tt, {| maxTokens := maxTokens s; index := index';
                       items := items s; currentTokens := currentTokens s |})
    | None => (Throw "addPoint", s)
    end.

(** [items.push(item); currentTokens += tokenCount] *)
Definition push (item : ContextItem) (tokenCount : Z) : M VectorStore unit :=
  fun s => (Normal tt, {| maxTokens := maxTokens s; index := index s;
                          items := items s ++ [item];
                          currentTokens := (currentTokens s + tokenCount)%Z |}).

(** The [try] block of [addItem], after the guard. *)
Definition addItem_body (item : ContextItem) : M VectorStore unit :=
  let! vector := lift (textToVector (content item)) in
  let! encoded := lift (match encode (content item) with
                        | Some encoded => Normal encoded
                        | None => Throw "encode"
                        end) in
  let tokenCount := Z.of_nat (length encoded) in
  do! evict tokenCount in
  let! s := get in
  let id := length (items s) in
  do! index_addPoint vector id in
  push item tokenCount.

(** [addItem(item)]; [None] is a null or undefined argument.  Every error
    is caught and logged, the function then returns. *)
Definition addItem (item : option ContextItem) : M VectorStore unit :=
  try_catchM
    (match item with
     | None => ret tt
     | Some it =>
         if negb (String.eqb (typeof (content it)) "string") then ret tt
         else addItem_body it
     end)
    (fun _ => ret tt).

(** The object returned for a neighbour that [items] does not hold. *)
Definition not_found : ContextItem :=
  {| role := "system"; content := VString "Context item not found" |}.

(** [getRelevantContext(query, k)]: [items[id] || not_found] for every
    neighbour the index returns; any error gives the empty array.  A search
    that returns hands back an array of neighbours, so the test
    [!results || !Array.isArray(results.neighbors)] never fires. *)
Definition getRelevantContext (s : VectorStore) (query : Value) (k : nat)
  : completion (list ContextItem) :=
  try_catch
    (if Nat.eqb (length (items s)) 0 then Normal []
     else
       match textToVector query with
       | Throw e => Throw e
       | Normal queryVector =>
           match searchKnn (index s) queryVector (Nat.min k (length (items s))) with
           | None => Throw "searchKnn"
           | Some neighbors =>
               Normal (map (fun id => default not_found (items s !! id)) neighbors)
           end
       end)
    (fun _ => Normal []).

(** ** The module: one global store *)

(** [vectorStore = createVectorStore()] with the default budget. *)
Definition default_maxTokens : Z := 4096.
Definition initial : VectorStore := createVectorStore default_maxTokens.

(** The test of [addContext]:
    [existingItem.role === item.role && existingItem.content === item.content]. *)
Definition same_turn (item existingItem : ContextItem) : bool :=
  String.eqb (role existingItem) (role item)
  && strict_eq (content existingItem) (content item).

(** [addContext(item)]: reading [item.content] of null or undefined throws a
    TypeError before anything else happens. *)
Definition addContext (item : option ContextItem) : M VectorStore unit :=
  match item with
  | None => throw "TypeError"
  | Some it =>
      let! vectorStore := get in
      let! existingItems := lift (getRelevantContext vectorStore (content it) 5) in
      if negb (existsb (same_turn it) existingItems) then addItem item
      else ret tt
  end.

(** [getContext(query)] *)
Definition getContext (s : VectorStore) (query : string) : completion (list ContextItem) :=
  getRelevantContext s (VString query) 5.

(** [clearContext()] *)
Definition clearContext : M VectorStore unit := fun _ => (Normal tt, initial).

(** A caller's sequence of calls on the module; a call that throws leaves
    the store as it is and the caller goes on. *)
Inductive call : Type :=
| CallAddContext (item : option ContextItem)
| CallGetContext (query : string)
| CallClearContext.

Definition step (s : VectorStore) (c : call) : VectorStore :=
  match c with
  | CallAddContext item => snd (addContext item s)
  | CallGetContext _ => s
  | CallClearContext => snd (clearContext s)
  end.

Definition run (s : VectorStore) (calls : list call) : VectorStore :=
  foldl step s calls.

(** Tokens held by a sequence of items, as the encoder counts them. *)
Definition held (its : list ContextItem) : Z :=
  foldr (fun it acc => (tokenCount (content it) + acc)%Z) 0%Z its.

(** Every item of the sequence can be encoded. *)
Definition encodable (its : list ContextItem) : Prop :=
  Forall (fun it => is_Some (encode (content it))) its.

(** [currentTokens] is the sum of the token counts of the live items. *)
Definition accounted (s : VectorStore) : Prop :=
  encodable (items s) /\ currentTokens s = held (items s).

(** The budget holds, or one item alone exceeds it. *)
Definition within_budget (s : VectorStore) : Prop :=
  (currentTokens s <= maxTokens s)%Z \/ length (items s) = 1.

(** The labels of the index are the positions of [items]: what holds as
    long as nothing was evicted. *)
Definition aligned (s : VectorStore) : Prop :=
  (forall l, l ∈ getIdsList (index s) <-> l < length (items s))
  /\ length (getIdsList (index s)) = length (items s)
  /\ getMaxElements (index s) = 1000.

(** [addContext] of each turn of a list, in order. *)
Definition adds (turns : list ContextItem) : list call :=
  map (fun t => CallAddContext (Some t)) turns.

End VectorStore.

(** ** Reference instances of the two libraries *)

Module Reference.

(** Modelled from the spec: the Tokenizer of sections 2 and 6 (tiktoken in
    the source, an external library), as a byte-level tokenizer: one token
    per character, its code; anything that is not a string makes [encode]
    throw. *)
#[export] Instance bytes : Encoder := fun text =>
  match text with
  | VString s => Some (map (fun c => Z.of_nat (nat_of_ascii c)) (list_ascii_of_string s))
  | _ => None
  end.

(** Modelled from the spec: the ApproxIndex of section 4.2 (the hnswlib
    index of the source is an external library), as the exact cosine scan
    the spec allows in its place.  Points are kept in insertion order with
    their label and their normalised vector.  [addPoint] on a new label
    throws once [scan_max] points are stored; on a known label it replaces
    the vector of that point, as hnswlib does.  [searchKnn] returns the
    labels of the [k] closest points by increasing cosine distance
    [1 - q.v], computed on binary64 numbers. *)
Record Scan : Type := mkScan {
  scan_max : nat;
  scan_points : list (nat * list float)
}.

Definition dot (a b : list float) : float :=
  foldl (fun acc p => PrimFloat.add acc (PrimFloat.mul p.1 p.2)) 0%float (zip a b).

(** The guard against a zero norm, 1e-30. *)
Definition tiny : float := 0x1.4484bfeebc2ap-100%float.

Definition unit_vector (v : list float) : list float :=
  let norm := PrimFloat.div 1%float
                (PrimFloat.add (PrimFloat.sqrt (dot v v)) tiny) in
  map (fun x => PrimFloat.mul x norm) v.

Definition distance (q v : list float) : float := PrimFloat.sub 1%float (dot q v).

Definition has_label (l : nat) (ps : list (nat * list float)) : bool :=
  existsb (fun p => Nat.eqb p.1 l) ps.

Definition set_label (l : nat) (v : list float) (ps : list (nat * list float))
  : list (nat * list float) :=
  map (fun p => if Nat.eqb p.1 l then (l, v) else p) ps.

Definition scan_addPoint (idx : Scan) (v : list float) (l : nat) : option Scan :=
  if has_label l (scan_points idx) then
    Some {| scan_max := scan_max idx;
            scan_points := set_label l (unit_vector v) (scan_points idx) |}
  else if Nat.leb (scan_max idx) (length (scan_points idx)) then None
  else Some {| scan_max := scan_max idx;
               scan_points := scan_points idx ++ [(l, unit_vector v)] |}.

(** Candidates are kept sorted by distance; among equal distances the
    point stored first comes first. *)
Fixpoint insert_by (d : float) (l : nat) (cs : list (float * nat)) : list (float * nat) :=
  match cs with
  | [] => [(d, l)]
  | c :: cs' => if PrimFloat.ltb d c.1 then (d, l) :: cs else c :: insert_by d l cs'
  end.

Definition ranked (q : list float) (ps : list (nat * list float)) : list (float * nat) :=
  foldl (fun cs p => insert_by (distance q p.2) p.1 cs) [] ps.

Definition scan_searchKnn (idx : Scan) (q : list float) (k : nat) : option (list nat) :=
  if Nat.ltb (scan_max idx) k then None
  else Some (take k (map snd (ranked (unit_vector q) (scan_points idx)))).

#[export] Instance scan : HierarchicalNSW := {|
  index_t := Scan;
  initIndex := fun _ n => {| scan_max := n; scan_points := [] |};
  addPoint := scan_addPoint;
  searchKnn := scan_searchKnn;
  getIdsList := fun idx => map fst (scan_points idx);
  getMaxElements := scan_max
|}.

(** A text of [n] copies of one character. *)
Definition text (n : nat) (c : ascii) : string :=
  string_of_list_ascii (replicate n c).

Definition turn (r : string) (s : string) : ContextItem :=
  {| role := r; content := VString s |}.

(** Three long turns: any two fit the default budget, the three do not. *)
Definition long_A : ContextItem := turn "user" (text 1500 "a").
Definition long_B : ContextItem := turn "assistant" (text 1500 "b").
Definition long_C : ContextItem := turn "user" (text 1500 "c").

(** A conversation after which a live turn is no longer found: two short
    turns, the turn [again_X], and a long answer that evicts the first two. *)
Definition again_A : ContextItem := turn "user" (text 10 "z").
Definition again_B : ContextItem := turn "assistant" (text 100 "b").
Definition again_X : ContextItem := turn "user" (text 50 "a").
Definition again_D : ContextItem :=
  turn "assistant" (String.append (text 50 "a") (text 3910 "001"%char)).

(** Three turns of half the default budget each. *)
Definition half_1 : ContextItem := turn "user" (text 2048 "a").
Definition half_2 : ContextItem := turn "assistant" (text 2048 "b").
Definition half_3 : ContextItem := turn "user" (text 2048 "c").

(** Distinct turns of two tokens each. *)
Definition small (n : nat) : ContextItem :=
  turn "user" (String (ascii_of_nat (n / 200 + 33))
                 (String (ascii_of_nat (n mod 200 + 33)) EmptyString)).

(** As many distinct small turns as the index was initialised for. *)
Definition thousand : list ContextItem := map small (seq 0 1000).

(** An object whose content is a number. *)
Definition numeric : ContextItem := {| role := "user"; content := VNumber 42 |}.

(** No turn of the list occurs twice, checked with the test of [addContext]. *)
Fixpoint distinctb (l : list ContextItem) : bool :=
  match l with
  | [] => true
  | x :: l' => negb (existsb (same_turn x) l') && distinctb l'
  end.

(** The module's store after some conversations. *)
Definition after_long_A : VectorStore := run initial (adds [long_A]).
Definition after_long_B : VectorStore := run initial (adds [long_A; long_B]).
Definition after_long_C : VectorStore := run initial (adds [long_A; long_B; long_C]).
Definition after_again_D : VectorStore :=
  run initial (adds [again_A; again_B; again_X; again_D]).
Definition after_two : VectorStore := run initial (adds [small 0; small 1]).

End Reference.

(** A second stand-in for tiktoken, used where the encoder has to fail on a
    text: the byte-level tokenizer, except that a text containing the
    special token is refused, as tiktoken refuses special tokens that were
    not allowed explicitly. *)
Module Strict.

Definition special : string := "<|endoftext|>".

Definition strict : Encoder := fun text =>
  match text with
  | VString s =>
      match String.index 0 special s with
      | Some _ => None
      | None => Reference.bytes text
      end
  | _ => None
  end.

End Strict.

(** ** The loading animation (src/gradient.ts) *)

Module Gradient.

(** [const gradientColors] *)
Definition gradientColors : list string :=
  ["#ff5e00"; "#ff4c29"; "#ff383f"; "#ff2453"; "#ff0565";
   "#ff007b"; "#f5008b"; "#e6149c"; "#d629ae"; "#c238bd"].

(** [array.slice(start, end)] for indices that are not negative. *)
Definition slice {A} (start end_ : nat) (l : list A) : list A :=
  take (end_ - start) (drop start l).

(** [[...colors, ...[...colors].reverse(), ...colors]] *)
Definition referenceOf (colors : list string) : list string :=
  colors ++ rev colors ++ colors.

Definition referenceGradient : list string := referenceOf gradientColors.

Section Frames.

(** [chalk.bgHex(g)(" ")]: one cell painted in colour [g]. *)
Variable bgHex : string -> string -> string.

(** The colours of the frame that starts at [start]:
    [reference.slice(start, start + colors.length - 1)]. *)
Definition window (colors : list string) (start : nat) : list string :=
  slice start (start + length colors - 1) (referenceOf colors).

(** One frame: the cells of its window, joined. *)
Definition frame (colors : list string) (start : nat) : string :=
  String.concat "" (map (fun g => bgHex g " ") (window colors start)).

(** The loop of [getGradientAnimFrames], for a list of colours:
    [for (start = 0; start < colors.length * 2; start++) frames.push(...)]. *)
Definition framesOf (colors : list string) : list string :=
  map (frame colors) (seq 0 (length colors * 2)).

(** [getGradientAnimFrames()] *)
Definition getGradientAnimFrames : list string := framesOf gradientColors.

End Frames.

End Gradient.

(** ** Multi-line input (the readline handlers of promptMultilineInput) *)

Module Multiline.

(** What the readline interface emits. *)
Inductive event : Type :=
| Line (line : string)
| Close.

(** The variable [multilineInput] and the state of the promise. *)
Record state : Type := mkState {
  multilineInput : string;
  resolved : option string
}.

Definition newline : string := String (ascii_of_nat 10) EmptyString.

(** [rl.on("line", line => multilineInput += line + "\n")] and
    [rl.on("close", () => resolve(multilineInput))]; resolving a promise a
    second time has no effect. *)
Definition handle (st : state) (e : event) : state :=
  match e with
  | Line line =>
      {| multilineInput :=
           String.append (multilineInput st) (String.append line newline);
         resolved := resolved st |}
  | Close =>
      {| multilineInput := multilineInput st;
         resolved := match resolved st with
                     | None => Some (multilineInput st)
                     | Some text => Some text
                     end |}
  end.

(** The promise of [promptMultilineInput] after a sequence of events:
    [None] while it is pending. *)
Definition promptMultilineInput (events : list event) : option string :=
  resolved (foldl handle {| multilineInput := ""; resolved := None |} events).

(** Every line followed by a newline, in order. *)
Definition joined (lines : list string) : string :=
  foldr (fun line rest => String.append line (String.append newline rest))
        "" lines.

End Multiline.

(** ** More sample turns and stores on the reference instances *)

Module Samples.
Import Reference.

(** A turn that alone exceeds the default budget. *)
Definition huge : ContextItem := turn "user" (text 5000 "a").

(** A turn the strict tokenizer refuses. *)
Definition with_special : ContextItem := turn "user" "say <|endoftext|> now".

(** The module's store holding two turns of half the budget each. *)
Definition after_halves : VectorStore := run initial (adds [half_1; half_2]).

(** A store with a budget of ten tokens after four [addItem] calls. *)
Definition ten_store : VectorStore :=
  foldl (fun s item => snd (addItem item s)) (createVectorStore 10)
        [Some (small 0); None; Some numeric; Some long_A].

End Samples.

(** ** Facts about the store, for any encoder and any index *)

Section VectorStoreFacts.

Context {E : Encoder} {I : HierarchicalNSW}.

#[local] Opaque dimension.

(** *** The vectorizer *)

Lemma fill_upto_length (f : nat -> float) n (vector : list float) :
  length (foldl (fun vector i => <[i := f i]> vector) vector (seq 0 n))
  = length vector.
Proof.
  induction n as [|n IH]; [done|].
  rewrite seq_S, foldl_app. simpl. by rewrite length_insert.
Qed.

Lemma fill_upto_lookup (f : nat -> float) n (vector : list float) i :
  n <= length vector ->
  foldl (fun vector i => <[i := f i]> vector) vector (seq 0 n) !! i
  = if decide (i < n) then Some (f i) else vector !! i.
Proof.
  induction n as [|n IH]; intros Hn.
  - simpl. destruct (decide (i < 0)); [lia|done].
  - rewrite seq_S, foldl_app. simpl.
    destruct (decide (i = n)) as [->|Hne].
    + rewrite list_lookup_insert_eq by (rewrite fill_upto_length; lia).
      destruct (decide (n < S n)); [done|lia].
    + rewrite list_lookup_insert_ne by done.
      rewrite IH by lia.
      destruct (decide (i < n)), (decide (i < S n)); done || lia.
Qed.

Lemma fill_length encoded vector : length (fill encoded vector) = length vector.
Proof. apply fill_upto_length. Qed.

Lemma textToVector_encoded text encoded :
  encode text = Some encoded ->
  textToVector text = Normal (fill encoded (replicate dimension 0%float)).
Proof. intros H. unfold textToVector. by rewrite H. Qed.

Lemma textToVector_throws text :
  encode text = None ->
  textToVector text = Throw "Failed to convert text to vector".
Proof. intros H. unfold textToVector. by rewrite H. Qed.

Lemma textToVector_length text vector :
  textToVector text = Normal vector -> length vector = dimension.
Proof.
  destruct (encode text) as [encoded|] eqn:H.
  - rewrite (textToVector_encoded _ _ H). intros [= <-].
    by rewrite fill_length, length_replicate.
  - by rewrite (textToVector_throws _ H).
Qed.

(** *** The eviction loop *)

Lemma held_app its1 its2 : held (its1 ++ its2) = (held its1 + held its2)%Z.
Proof. induction its1 as [|it its1 IH]; simpl; [done|]. rewrite IH. lia. Qed.

Lemma tokenCount_nonneg text : (0 <= tokenCount text)%Z.
Proof. unfold tokenCount. destruct (encode text); lia. Qed.

Lemma held_nonneg its : (0 <= held its)%Z.
Proof.
  induction its as [|it its IH]; simpl; [done|].
  pose proof (tokenCount_nonneg (content it)). lia.
Qed.

(** The loop drops a prefix of the live sequence, oldest first, gives back
    exactly the tokens of what it dropped, and stops as soon as the new
    item fits or nothing is left. *)
Lemma shift_while_spec maxT tc its cur :
  encodable its ->
  exists n,
    shift_while maxT tc its cur
    = (Normal tt, (drop n its, (cur - held (take n its))%Z))
    /\ n <= length its
    /\ ((cur - held (take n its) + tc <= maxT)%Z \/ drop n its = [])
    /\ (forall m, m < n -> (maxT < cur - held (take m its) + tc)%Z).
Proof.
  intros Henc. revert cur.
  induction Henc as [|it its [enc Hit] Hits IH]; intros cur.
  - exists 0. simpl. rewrite Z.sub_0_r.
    split; [done|]. split; [done|]. split; [by right|]. intros m Hm. lia.
  - simpl. destruct (maxT <? cur + tc)%Z eqn:Hcmp.
    + rewrite Hit.
      destruct (IH (cur - Z.of_nat (length enc))%Z) as (n & Heq & Hn & Hstop & Hmin).
      assert (Htc : tokenCount (content it) = Z.of_nat (length enc))
        by (unfold tokenCount; by rewrite Hit).
      exists (S n). simpl. rewrite Htc.
      split; [rewrite Heq; do 2 f_equal; lia|].
      split; [lia|].
      split; [destruct Hstop as [Hstop|Hstop]; [left; lia|by right]|].
      intros [|m] Hm; simpl.
      * apply Z.ltb_lt in Hcmp. lia.
      * rewrite Htc. specialize (Hmin m ltac:(lia)). lia.
    + exists 0. simpl. rewrite Z.sub_0_r.
      split; [done|]. split; [lia|].
      split; [left; apply Z.ltb_ge in Hcmp; lia|]. intros m Hm. lia.
Qed.

Lemma encodable_drop n its : encodable its -> encodable (drop n its).
Proof. apply Forall_drop. Qed.

Lemma held_take_drop n its : held its = (held (take n its) + held (drop n its))%Z.
Proof. by rewrite <- held_app, take_drop. Qed.

(** Without any assumption the loop still only drops a prefix. *)
Lemma shift_while_suffix maxT tc its cur :
  exists n, fst (snd (shift_while maxT tc its cur)) = drop n its.
Proof.
  revert cur. induction its as [|it its IH]; intros cur; simpl.
  - by exists 0.
  - destruct (maxT <? cur + tc)%Z; [|by exists 0].
    destruct (encode (content it)) as [enc|]; [|by exists 1].
    destruct (IH (cur - Z.of_nat (length enc))%Z) as [n Hn]. by exists (S n).
Qed.

(** The store after [n] evictions. *)
Lemma evict_spec tc s :
  encodable (items s) ->
  exists n,
    evict tc s
    = (Normal tt,
       {| maxTokens := maxTokens s; index := index s;
          items := drop n (items s);
          currentTokens := (currentTokens s - held (take n (items s)))%Z |})
    /\ n <= length (items s)
    /\ ((currentTokens s - held (take n (items s)) + tc <= maxTokens s)%Z
        \/ drop n (items s) = [])
    /\ (forall m, m < n ->
          (maxTokens s < currentTokens s - held (take m (items s)) + tc)%Z).
Proof.
  intros Henc.
  destruct (shift_while_spec (maxTokens s) tc (items s) (currentTokens s) Henc)
    as (n & Heq & Hn & Hstop & Hmin).
  exists n. unfold evict. by rewrite Heq.
Qed.

Lemma evict_fields tc s :
  maxTokens (snd (evict tc s)) = maxTokens s
  /\ index (snd (evict tc s)) = index s
  /\ exists n, items (snd (evict tc s)) = drop n (items s).
Proof.
  unfold evict.
  destruct (shift_while_suffix (maxTokens s) tc (items s) (currentTokens s)) as [n Hn].
  destruct (shift_while _ _ _ _) as [c [its cur]]. simpl in *.
  repeat split; eauto.
Qed.

(** *** [addItem] *)

Lemma typeof_string v : typeof v = "string" <-> exists c, v = VString c.
Proof. destruct v; simpl; split; intros H; try done; eauto; by destruct H. Qed.

Lemma typeof_guard v :
  negb (String.eqb (typeof v) "string") = false <-> exists c, v = VString c.
Proof.
  rewrite negb_false_iff, String.eqb_eq. apply typeof_string.
Qed.

Lemma try_catchM_returns {S} (body : M S unit) s :
  fst (try_catchM body (fun _ => ret tt) s) = Normal tt.
Proof. unfold try_catchM. by destruct (body s) as [[[]|e] s']. Qed.

(** [addItem] never throws: its body is one [try] block. *)
Lemma addItem_returns item s : fst (addItem item s) = Normal tt.
Proof.
  unfold addItem. apply try_catchM_returns.
Qed.

(** An argument that fails the guard leaves the store as it is. *)
Lemma addItem_invalid item s :
  (forall it, item = Some it -> typeof (content it) <> "string") ->
  addItem item s = (Normal tt, s).
Proof.
  intros Hbad. unfold addItem, try_catchM. destruct item as [it|]; [|done].
  destruct (negb (String.eqb (typeof (content it)) "string")) eqn:Hg; [done|].
  apply negb_false_iff, String.eqb_eq in Hg. by destruct (Hbad it).
Qed.

(** An encoder failure happens before anything is changed. *)
Lemma addItem_unencodable it s :
  encode (content it) = None -> addItem (Some it) s = (Normal tt, s).
Proof.
  intros Henc. unfold addItem, try_catchM.
  destruct (negb _); [done|].
  unfold addItem_body, bind, lift. by rewrite (textToVector_throws _ Henc).
Qed.

(** The vector and the id that [addItem] hands to the index. *)
Lemma addItem_valid it c enc s :
  content it = VString c -> encode (content it) = Some enc ->
  let tc := Z.of_nat (length enc) in
  let s1 := snd (evict tc s) in
  addItem (Some it) s =
    match fst (evict tc s) with
    | Throw _ => (Normal tt, s1)
    | Normal _ =>
        match addPoint (index s1) (fill enc (replicate dimension 0%float))
                       (length (items s1)) with
        | None => (Normal tt, s1)
        | Some index' =>
            (Normal tt,
             {| maxTokens := maxTokens s1; index := index';
                items := items s1 ++ [it];
                currentTokens := (currentTokens s1 + tc)%Z |})
        end
    end.
Proof.
  intros Hc Henc tc s1. unfold addItem, try_catchM.
  assert (Hg : negb (String.eqb (typeof (content it)) "string") = false)
    by (apply typeof_guard; eauto).
  rewrite Hg. unfold addItem_body, bind, lift, get.
  rewrite (textToVector_encoded _ _ Henc), Henc.
  subst s1 tc. destruct (evict _ s) as [[[]|e] s1]; simpl; [|done].
  unfold index_addPoint, push.
  destruct (addPoint _ _ _); done.
Qed.

(** *** [getRelevantContext] *)

Lemma getRelevantContext_empty s query k :
  items s = [] -> getRelevantContext s query k = Normal [].
Proof. intros H. unfold getRelevantContext. by rewrite H. Qed.

(** What a query returns: nothing, or the neighbours of the index resolved
    by position in [items]. *)
Lemma getRelevantContext_cases s query k :
  getRelevantContext s query k = Normal []
  \/ exists queryVector neighbors,
       textToVector query = Normal queryVector
       /\ searchKnn (index s) queryVector (Nat.min k (length (items s)))
          = Some neighbors
       /\ getRelevantContext s query k
          = Normal (map (fun id => default not_found (items s !! id)) neighbors).
Proof.
  unfold getRelevantContext.
  destruct (Nat.eqb (length (items s)) 0); [by left|].
  destruct (textToVector query) as [queryVector|e]; [|by left].
  destruct (searchKnn _ _ _) as [neighbors|] eqn:Hs; [|by left].
  right. by exists queryVector, neighbors.
Qed.

Lemma getRelevantContext_returns s query k :
  exists r, getRelevantContext s query k = Normal r.
Proof.
  destruct (getRelevantContext_cases s query k) as [H|(qv & nb & _ & _ & H)];
    rewrite H; eauto.
Qed.

(** Every returned item is a live item or the placeholder. *)
Lemma getRelevantContext_elem s query k r x :
  getRelevantContext s query k = Normal r -> In x r ->
  x = not_found \/ exists id, items s !! id = Some x.
Proof.
  intros Hr Hx.
  destruct (getRelevantContext_cases s query k) as [H|(qv & nb & _ & _ & H)];
    rewrite H in Hr; injection Hr as <-; [done|].
  apply in_map_iff in Hx as (id & <- & _).
  destruct (items s !! id) as [y|] eqn:Hy; simpl; eauto.
Qed.

(** *** [addContext] *)

Lemma same_turn_true it existing : same_turn it existing = true <-> existing = it.
Proof.
  unfold same_turn, strict_eq.
  rewrite andb_true_iff, String.eqb_eq, bool_decide_eq_true.
  destruct it, existing; simpl. split; [by intros [-> ->]|by intros [= -> ->]].
Qed.

Lemma existsb_same_turn it l : existsb (same_turn it) l = true <-> In it l.
Proof.
  rewrite existsb_exists. split.
  - intros (x & Hx & Hs). apply same_turn_true in Hs. by subst.
  - intros Hin. exists it. split; [done|]. by apply same_turn_true.
Qed.

(** [addContext] on an object: a no-op when the query finds the same turn,
    [addItem] otherwise. *)
Lemma addContext_Some it s :
  exists existingItems,
    getRelevantContext s (content it) 5 = Normal existingItems
    /\ addContext (Some it) s
       = if existsb (same_turn it) existingItems then (Normal tt, s)
         else addItem (Some it) s.
Proof.
  destruct (getRelevantContext_returns s (content it) 5) as [r Hr].
  exists r. split; [done|].
  unfold addContext, bind, get, lift. rewrite Hr.
  by destruct (existsb _ _).
Qed.

Lemma addContext_None s : addContext None s = (Throw "TypeError", s).
Proof. done. Qed.

(** An object argument never makes [addContext] throw. *)
Lemma addContext_returns it s : fst (addContext (Some it) s) = Normal tt.
Proof.
  destruct (addContext_Some it s) as (r & _ & ->).
  destruct (existsb _ _); [done|apply addItem_returns].
Qed.

(** *** What one [addItem] does to an accounted store *)

Lemma held_singleton it enc :
  encode (content it) = Some enc -> held [it] = Z.of_nat (length enc).
Proof. intros H. simpl. unfold tokenCount. rewrite H. lia. Qed.

Lemma addItem_accounted_cases item s :
  accounted s ->
  addItem item s = (Normal tt, s)
  \/ exists it c enc n,
      item = Some it /\ content it = VString c /\ encode (content it) = Some enc
      /\ n <= length (items s)
      /\ ((currentTokens s - held (take n (items s)) + Z.of_nat (length enc)
           <= maxTokens s)%Z \/ drop n (items s) = [])
      /\ (forall m, m < n ->
            (maxTokens s
             < currentTokens s - held (take m (items s)) + Z.of_nat (length enc))%Z)
      /\ match addPoint (index s) (fill enc (replicate dimension 0%float))
                        (length (drop n (items s))) with
         | None =>
             addItem item s
             = (Normal tt,
                {| maxTokens := maxTokens s; index := index s;
                   items := drop n (items s);
                   currentTokens :=
                     (currentTokens s - held (take n (items s)))%Z |})
         | Some index' =>
             addItem item s
             = (Normal tt,
                {| maxTokens := maxTokens s; index := index';
                   items := drop n (items s) ++ [it];
                   currentTokens :=
                     (currentTokens s - held (take n (items s))
                      + Z.of_nat (length enc))%Z |})
         end.
Proof.
  intros [Henc Hcur]. destruct item as [it|]; [|left; by apply addItem_invalid].
  destruct (decide (typeof (content it) = "string")) as [Hty|Hty];
    [|left; apply addItem_invalid; by intros ? [= <-]].
  apply typeof_string in Hty as [c Hc].
  destruct (encode (content it)) as [enc|] eqn:Hit;
    [|left; by apply addItem_unencodable].
  right. exists it, c, enc.
  destruct (evict_spec (Z.of_nat (length enc)) s Henc)
    as (n & Hev & Hn & Hstop & Hmin).
  exists n. repeat (split; [done|]).
  rewrite (addItem_valid it c enc s Hc Hit), Hev. simpl.
  by destruct (addPoint _ _ _).
Qed.

Lemma addItem_maxTokens item s : maxTokens (snd (addItem item s)) = maxTokens s.
Proof.
  destruct item as [it|]; [|by rewrite addItem_invalid].
  destruct (decide (typeof (content it) = "string")) as [Hty|Hty];
    [|rewrite addItem_invalid; [done|by intros ? [= <-]]].
  apply typeof_string in Hty as [c Hc].
  destruct (encode (content it)) as [enc|] eqn:Hit;
    [|by rewrite addItem_unencodable].
  rewrite (addItem_valid it c enc s Hc Hit).
  destruct (evict_fields (Z.of_nat (length enc)) s) as (Hm & _ & _).
  destruct (fst (evict _ s)); [|done].
  by destruct (addPoint _ _ _).
Qed.

Lemma addItem_accounted item s : accounted s -> accounted (snd (addItem item s)).
Proof.
  intros Hacc.
  destruct (addItem_accounted_cases item s Hacc)
    as [->|(it & c & enc & n & -> & Hc & Hit & Hn & Hstop & Hmin & Hadd)]; [done|].
  destruct Hacc as [Henc Hcur].
  pose proof (held_take_drop n (items s)) as Hsplit.
  destruct (addPoint _ _ _); rewrite Hadd; split; simpl.
  - apply Forall_app. split; [by apply encodable_drop|].
    apply Forall_singleton. by rewrite Hit.
  - rewrite held_app, (held_singleton it enc Hit). lia.
  - by apply encodable_drop.
  - lia.
Qed.

Lemma addItem_within_budget item s :
  accounted s -> (0 <= maxTokens s)%Z -> within_budget s ->
  within_budget (snd (addItem item s)).
Proof.
  intros Hacc Hmax Hb.
  destruct (addItem_accounted_cases item s Hacc)
    as [->|(it & c & enc & n & -> & Hc & Hit & Hn & Hstop & Hmin & Hadd)]; [done|].
  destruct Hacc as [Henc Hcur].
  pose proof (held_take_drop n (items s)) as Hsplit.
  unfold within_budget.
  destruct (addPoint _ _ _); rewrite Hadd; simpl.
  - destruct Hstop as [Hfit|Hnil]; [by left|]. right. by rewrite Hnil.
  - left. destruct Hstop as [Hfit|Hnil]; [lia|].
    rewrite Hnil in Hsplit. simpl in Hsplit. lia.
Qed.

(** *** What one [addContext] does *)

Lemma addContext_snd_cases item s :
  snd (addContext item s) = s
  \/ snd (addContext item s) = snd (addItem item s).
Proof.
  destruct item as [it|]; [|by left].
  destruct (addContext_Some it s) as (r & _ & ->).
  destruct (existsb _ _); [by left|by right].
Qed.

Lemma initial_invariant :
  accounted initial /\ within_budget initial
  /\ maxTokens initial = default_maxTokens.
Proof.
  split; [split; [apply Forall_nil_2|done]|]. split; [by left|done].
Qed.

(** The invariant of the module's store. *)
Lemma step_invariant s c :
  accounted s /\ within_budget s /\ maxTokens s = default_maxTokens ->
  accounted (step s c) /\ within_budget (step s c)
  /\ maxTokens (step s c) = default_maxTokens.
Proof.
  intros (Hacc & Hb & Hmax). destruct c as [item|query|]; simpl.
  - destruct (addContext_snd_cases item s) as [->| ->]; [done|].
    split; [by apply addItem_accounted|].
    split; [apply addItem_within_budget; try done; by rewrite Hmax|].
    by rewrite addItem_maxTokens.
  - done.
  - apply initial_invariant.
Qed.

Lemma run_invariant s calls :
  accounted s /\ within_budget s /\ maxTokens s = default_maxTokens ->
  accounted (run s calls) /\ within_budget (run s calls)
  /\ maxTokens (run s calls) = default_maxTokens.
Proof.
  revert s. induction calls as [|c calls IH]; intros s Hs; [done|].
  simpl. apply IH. by apply step_invariant.
Qed.



(** *** The claims that hold for any encoder and any index *)

(** C2, budget invariant: after any sequence of calls on the module's store
    (created with the default budget), [currentTokens <= maxTokens], or
    else the live sequence holds exactly one turn. *)
Theorem budget_invariant (calls : list call) :
  let s := run initial calls in
  maxTokens s = default_maxTokens
  /\ ((currentTokens s <= maxTokens s)%Z \/ length (items s) = 1).
Proof.
  destruct (run_invariant initial calls initial_invariant) as (_ & Hb & Hmax).
  by split.
Qed.

(** C7, token accounting: after any sequence of calls on the module's
    store, every live turn is one the encoder counts and [currentTokens] is
    the sum of the token counts of the live turns. *)
Theorem token_accounting (calls : list call) :
  let s := run initial calls in
  encodable (items s) /\ currentTokens s = held (items s).
Proof.
  by destruct (run_invariant initial calls initial_invariant) as (Hacc & _ & _).
Qed.

(** C8, fresh and reset stores are empty: a query on the freshly created
    store returns the empty sequence for every query and every [k]; after
    [clearContext], whatever was added before, every query returns the
    empty sequence (so no turn added before can be returned),
    [currentTokens] is 0 and nothing is live. *)
Theorem fresh_and_reset_store_empty (calls : list call) (query : Value) (k : nat) :
  getRelevantContext initial query k = Normal []
  /\ let s := snd (clearContext (run initial calls)) in
     getRelevantContext s query k = Normal []
     /\ currentTokens s = 0%Z /\ items s = [].
Proof. split; [|repeat split]; by apply getRelevantContext_empty. Qed.

(** The number stored for a token of a [Uint32Array] is the binary64
    quotient of the token by 100. *)
Lemma normalized_spec (encoded : list Z) (i : nat) (t : Z) :
  encoded !! i = Some t -> (0 <= t < 2 ^ 32)%Z ->
  Prim2SF (normalized encoded i) = token_over_100 t.
Proof.
  intros Hi Ht. unfold normalized, number_of_token, token_over_100.
  rewrite Hi. simpl. rewrite div_spec, of_uint63_spec.
  replace (Uint63Axioms.to_Z (Uint63.of_Z t)) with t; [reflexivity|].
  symmetry. etrans; [apply Uint63.of_Z_spec|].
  apply Z.mod_small. change Uint63.wB with (2 ^ 63)%Z. lia.
Qed.

(** C6, vectorizer contract: when the encoder returns [encoded] for a
    text, a sequence of token ids as a [Uint32Array] holds them,
    [textToVector] returns a vector of length [dimension]; its entry [i],
    for every token position [i < dimension], is the binary64 number whose
    value is the IEEE 754 quotient of that token by 100; the tokens from
    position [dimension] on are dropped, and the entries past the end of a
    shorter token sequence are 0. *)
Theorem textToVector_contract (text : Value) (encoded : list Z) :
  encode text = Some encoded ->
  Forall (fun t => (0 <= t < 2 ^ 32)%Z) encoded ->
  exists vector,
    textToVector text = Normal vector
    /\ length vector = dimension
    /\ (forall i t, i < dimension -> encoded !! i = Some t ->
          exists x, vector !! i = Some x /\ Prim2SF x = token_over_100 t)
    /\ (forall i, length encoded <= i -> i < dimension ->
          vector !! i = Some 0%float).
Proof.
  intros Henc Hu32. exists (fill encoded (replicate dimension 0%float)).
  split; [by apply textToVector_encoded|].
  split; [by rewrite fill_length, length_replicate|].
  assert (Hle : Nat.min (length encoded) dimension
                <= length (replicate dimension 0%float))
    by (rewrite length_replicate; lia).
  split.
  - intros i t Hi Ht. exists (normalized encoded i). split.
    + unfold fill. rewrite fill_upto_lookup by done.
      pose proof (lookup_lt_Some _ _ _ Ht).
      destruct (decide (i < Nat.min (length encoded) dimension)); [done|lia].
    + apply (normalized_spec encoded i t Ht).
      exact (proj1 (Forall_lookup _ _) Hu32 i t Ht).
  - intros i Hlen Hi. unfold fill. rewrite fill_upto_lookup by done.
    destruct (decide (i < Nat.min (length encoded) dimension)); [lia|].
    by apply lookup_replicate_2.
Qed.

(** C10, query totality and length bound: for an index whose searches
    return at most [k] neighbours, [getRelevantContext] always returns, with
    at most [min k (length items)] items; it returns the empty sequence when
    the query cannot be vectorised or the search throws, and otherwise the
    neighbours of a search for [min k (length items)] points. *)
Theorem getRelevantContext_total_bounded
    (Hsearch : forall idx q k r, searchKnn idx q k = Some r -> length r <= k)
    (s : VectorStore) (query : Value) (k : nat) :
  exists r,
    getRelevantContext s query k = Normal r
    /\ length r <= Nat.min k (length (items s))
    /\ (forall e, textToVector query = Throw e -> r = [])
    /\ (forall queryVector, textToVector query = Normal queryVector ->
         match searchKnn (index s) queryVector (Nat.min k (length (items s))) with
         | None => r = []
         | Some neighbors =>
             items s = []
             \/ r = map (fun id => default not_found (items s !! id)) neighbors
         end).
Proof.
  unfold getRelevantContext.
  destruct (Nat.eqb (length (items s)) 0) eqn:Hlen.
  - exists []. simpl. split; [done|]. split; [lia|]. split; [done|].
    intros qv _. apply Nat.eqb_eq, length_zero_iff_nil in Hlen.
    destruct (searchKnn _ _ _); [by left|done].
  - destruct (textToVector query) as [qv|e]; simpl.
    + destruct (searchKnn _ _ _) as [nb|] eqn:Hnb; simpl.
      * eexists. split; [done|]. rewrite length_map.
        split; [by eapply Hsearch|]. split; [done|].
        intros qv' [= <-]. rewrite Hnb. by right.
      * exists []. split; [done|]. split; [simpl; lia|]. split; [done|].
        intros qv' [= <-]. by rewrite Hnb.
    + exists []. split; [done|]. split; [simpl; lia|]. split; done.
Qed.

(** C9 (amended), invalid arguments: an argument that is null or undefined,
    or whose [content] is not a string, leaves the store (index, live
    sequence and [currentTokens]) as it was; [addContext] returns for an
    object whose [content] is not a string, and throws a TypeError for null
    or undefined. *)
Theorem addContext_invalid_argument (item : option ContextItem) (s : VectorStore) :
  (forall it, item = Some it -> typeof (content it) <> "string") ->
  snd (addContext item s) = s
  /\ (forall it, item = Some it -> fst (addContext item s) = Normal tt)
  /\ (item = None -> fst (addContext item s) = Throw "TypeError").
Proof.
  intros Hbad. split; [|split].
  - destruct (addContext_snd_cases item s) as [->| ->]; [done|].
    by rewrite addItem_invalid.
  - intros it ->. apply addContext_returns.
  - by intros ->.
Qed.

(** C3 (amended), a failing index insert: on a store whose live turns are
    encodable, when the query of [addContext] does not find the turn, the
    call returns normally whether [addPoint] succeeds or throws, so a
    failure is not reported to the caller; when [addPoint] throws, the turn
    is not appended and the index is the one before the call, only the
    evictions made for the turn remain; when it succeeds, the index point
    and the live entry are both there. *)
Theorem addContext_index_failure_swallowed
    (it : ContextItem) (c : string) (enc : list Z) (s : VectorStore)
    (existingItems : list ContextItem) :
  encodable (items s) ->
  content it = VString c -> encode (content it) = Some enc ->
  getRelevantContext s (content it) 5 = Normal existingItems ->
  ~ In it existingItems ->
  let tc := Z.of_nat (length enc) in
  let s1 := snd (evict tc s) in
  index s1 = index s
  /\ (exists n, items s1 = drop n (items s))
  /\ addContext (Some it) s
     = match addPoint (index s) (fill enc (replicate dimension 0%float))
                      (length (items s1)) with
       | None => (Normal tt, s1)
       | Some index' =>
           (Normal tt,
            {| maxTokens := maxTokens s; index := index';
               items := items s1 ++ [it];
               currentTokens := (currentTokens s1 + tc)%Z |})
       end.
Proof.
  intros Henc Hc Hit Hq Hnew tc s1.
  destruct (evict_fields tc s) as (Hmax & Hidx & Hsuf).
  split; [done|]. split; [done|].
  destruct (addContext_Some it s) as (r & Hr & ->).
  rewrite Hq in Hr. injection Hr as <-.
  destruct (existsb _ _) eqn:Hex; [by apply existsb_same_turn in Hex|].
  rewrite (addItem_valid it c enc s Hc Hit).
  destruct (evict_spec tc s Henc) as (n & Hev & _). fold tc.
  subst s1. rewrite Hev in *. simpl in *. done.
Qed.

End VectorStoreFacts.

(** ** Facts that rest on the contract of the index *)

Section IndexContract.

Context {E : Encoder} {I : HierarchicalNSW} {L : HierarchicalNSWLaws I}.

#[local] Opaque dimension.

Lemma initial_aligned : aligned initial.
Proof.
  unfold aligned, initial, createVectorStore. simpl.
  rewrite init_ids, init_max. split; [|done].
  intros l. split; [by intros ?%elem_of_nil|simpl; lia].
Qed.

(** While labels are positions, a query returns live turns only. *)
Lemma query_live s query k r x :
  (forall l, l ∈ getIdsList (index s) -> l < length (items s)) ->
  getRelevantContext s query k = Normal r -> In x r -> In x (items s).
Proof.
  intros Hids Hr Hx.
  destruct (getRelevantContext_cases s query k) as [H|(qv & nb & _ & Hnb & H)];
    rewrite H in Hr; injection Hr as <-; [done|].
  apply in_map_iff in Hx as (id & <- & Hid).
  apply list_elem_of_In in Hid.
  pose proof (Hids id (search_ids _ _ _ _ Hnb id Hid)) as Hlt.
  apply lookup_lt_is_Some_2 in Hlt as [y Hy]. rewrite Hy. simpl.
  apply list_elem_of_In. by eapply list_elem_of_lookup_2.
Qed.

(** A new turn that fits the budget, on a store that never evicted and has
    room in the index, is appended under the label [length items]. *)
Lemma addContext_append s it c enc :
  accounted s -> aligned s ->
  content it = VString c -> encode (content it) = Some enc ->
  ~ In it (items s) ->
  (currentTokens s + Z.of_nat (length enc) <= maxTokens s)%Z ->
  length (items s) < 1000 ->
  exists index',
    addPoint (index s) (fill enc (replicate dimension 0%float)) (length (items s))
    = Some index'
    /\ addContext (Some it) s
       = (Normal tt,
          {| maxTokens := maxTokens s; index := index';
             items := items s ++ [it];
             currentTokens := (currentTokens s + Z.of_nat (length enc))%Z |})
    /\ aligned {| maxTokens := maxTokens s; index := index';
                  items := items s ++ [it];
                  currentTokens := (currentTokens s + Z.of_nat (length enc))%Z |}.
Proof.
  intros [Henc Hcur] (Hids & Hlen & Hmax) Hc Hit Hnew Hfit Hroom.
  destruct (add_room (index s) (fill enc (replicate dimension 0%float))
              (length (items s))) as [index' Hadd]; [lia|].
  exists index'. split; [done|]. split.
  - destruct (addContext_Some it s) as (r & Hr & ->).
    destruct (existsb _ _) eqn:Hex.
    { apply existsb_same_turn in Hex. destruct Hnew.
      eapply query_live; [|done..]. intros l Hl. by apply Hids. }
    rewrite (addItem_valid it c enc s Hc Hit).
    destruct (evict_spec (Z.of_nat (length enc)) s Henc)
      as (n & Hev & Hn & Hstop & Hmin).
    destruct n as [|n]; [|specialize (Hmin 0 ltac:(lia)); simpl in Hmin; lia].
    rewrite Hev. simpl. rewrite !drop_0, Hadd. do 2 f_equal. lia.
  - unfold aligned. simpl. rewrite length_app. simpl.
    assert (Hnot : length (items s) ∉ getIdsList (index s))
      by (intros ?%Hids; lia).
    split; [|split].
    + intros l. rewrite (add_ids _ _ _ _ Hadd), Hids. lia.
    + rewrite (add_ids_new _ _ _ _ Hadd Hnot). lia.
    + by rewrite (add_max _ _ _ _ Hadd).
Qed.

(** One call either keeps a suffix of the live sequence or appends the
    new turn to a suffix of it. *)
Lemma addContext_items item s :
  exists n,
    items (snd (addContext item s)) = drop n (items s)
    \/ exists it, item = Some it
       /\ items (snd (addContext item s)) = drop n (items s) ++ [it].
Proof.
  destruct (addContext_snd_cases item s) as [->| ->]; [by exists 0; left|].
  destruct item as [it|]; [|rewrite addItem_invalid; [by exists 0; left|done]].
  destruct (decide (typeof (content it) = "string")) as [Hty|Hty];
    [|rewrite addItem_invalid; [by exists 0; left|by intros ? [= <-]]].
  apply typeof_string in Hty as [c Hc].
  destruct (encode (content it)) as [enc|] eqn:Hit;
    [|rewrite addItem_unencodable; [by exists 0; left|done]].
  rewrite (addItem_valid it c enc s Hc Hit).
  destruct (evict_fields (Z.of_nat (length enc)) s) as (_ & _ & n & Hn).
  exists n. destruct (fst (evict _ s)); [|by left].
  destruct (addPoint _ _ _); simpl; [right; exists it; by rewrite Hn|by left].
Qed.

Lemma run_snoc s calls c : run s (calls ++ [c]) = step (run s calls) c.
Proof. unfold run. by rewrite foldl_app. Qed.

Lemma run_adds_snoc s ts t :
  run s (adds (ts ++ [t])) = snd (addContext (Some t) (run s (adds ts))).
Proof. unfold adds. rewrite map_app. simpl. by rewrite run_snoc. Qed.

(** Distinct turns that fit the budget together, no more than the index
    can hold, are all live after being added in order, each under the
    label of its position. *)
Lemma run_adds_distinct ts :
  NoDup ts ->
  Forall (fun it => exists c, content it = VString c) ts ->
  encodable ts ->
  (held ts <= default_maxTokens)%Z ->
  length ts <= 1000 ->
  run initial (adds ts)
  = {| maxTokens := default_maxTokens; index := index (run initial (adds ts));
       items := ts; currentTokens := held ts |}
  /\ aligned (run initial (adds ts)).
Proof.
  induction ts as [|t ts IH] using rev_ind; intros Hnd Hstr Henc Hfit Hlen.
  - split; [done|apply initial_aligned].
  - apply NoDup_app in Hnd as (Hnd & Hnew & _).
    apply Forall_app in Hstr as [Hstr [[c Hc] _]%Forall_cons_1].
    apply Forall_app in Henc as [Henc [[enc Ht] _]%Forall_cons_1].
    rewrite length_app in Hlen. simpl in Hlen.
    rewrite held_app, (held_singleton t enc Ht) in Hfit.
    pose proof (held_nonneg (E:=E) ts) as Hpos.
    destruct IH as [Hrun Hal]; try done; try lia.
    rewrite run_adds_snoc. set (s := run initial (adds ts)) in *.
    assert (Hitems : items s = ts) by (by rewrite Hrun).
    assert (Hcur : currentTokens s = held ts) by (by rewrite Hrun).
    assert (Hmax : maxTokens s = default_maxTokens) by (by rewrite Hrun).
    destruct (addContext_append s t c enc) as (index' & _ & Hadd & Hal');
      try done.
    + split; rewrite Hitems; done.
    + rewrite Hitems. intros Hin%list_elem_of_In.
      by apply (Hnew t Hin), list_elem_of_singleton.
    + rewrite Hcur, Hmax. lia.
    + rewrite Hitems. lia.
    + rewrite Hadd. simpl. split; [|done].
      rewrite Hitems, Hcur, Hmax, held_app, (held_singleton t enc Ht). done.
Qed.

(** C4, FIFO eviction: a call keeps the live sequence in insertion order,
    removing only from its oldest end and appending only at its newest end;
    in particular three distinct turns of half the budget each, added in
    order to the module's store, leave the first two live after the second
    call and exactly the last two, the first evicted, after the third. *)
Theorem fifo_eviction :
  (forall item s, exists n,
      items (snd (addContext item s)) = drop n (items s)
      \/ exists it, item = Some it
         /\ items (snd (addContext item s)) = drop n (items s) ++ [it])
  /\ (forall T1 T2 T3 c1 c2 c3 e1 e2 e3,
        content T1 = VString c1 -> content T2 = VString c2 ->
        content T3 = VString c3 ->
        encode (content T1) = Some e1 -> encode (content T2) = Some e2 ->
        encode (content T3) = Some e3 ->
        (2 * Z.of_nat (length e1) = default_maxTokens)%Z ->
        (2 * Z.of_nat (length e2) = default_maxTokens)%Z ->
        (2 * Z.of_nat (length e3) = default_maxTokens)%Z ->
        T1 <> T2 -> T1 <> T3 -> T2 <> T3 ->
        items (run initial (adds [T1; T2])) = [T1; T2]
        /\ items (run initial (adds [T1; T2; T3])) = [T2; T3]).
Proof.
  split; [apply addContext_items|].
  intros T1 T2 T3 c1 c2 c3 e1 e2 e3 Hc1 Hc2 Hc3 He1 He2 He3 Hl1 Hl2 Hl3 H12 H13 H23.
  unfold default_maxTokens in *.
  assert (Hheld : held [T1; T2] = 4096%Z).
  { change [T1; T2] with ([T1] ++ [T2]).
    rewrite held_app, (held_singleton T1 e1 He1), (held_singleton T2 e2 He2). lia. }
  destruct (run_adds_distinct [T1; T2]) as [Hrun Hal].
  { apply NoDup_cons. split; [by intros ->%list_elem_of_singleton|].
    apply NoDup_singleton. }
  { repeat constructor; eauto. }
  { repeat constructor; by rewrite ?He1, ?He2. }
  { rewrite Hheld. done. }
  { simpl. lia. }
  split; [by rewrite Hrun|].
  change [T1; T2; T3] with ([T1; T2] ++ [T3]).
  rewrite run_adds_snoc. set (s := run initial (adds [T1; T2])) in *.
  assert (Hitems : items s = [T1; T2]) by (by rewrite Hrun).
  assert (Hcur : currentTokens s = 4096%Z) by (by rewrite Hrun, Hheld).
  assert (Hmax : maxTokens s = 4096%Z) by (by rewrite Hrun).
  assert (Henc : encodable (items s)).
  { rewrite Hitems. repeat constructor; by rewrite ?He1, ?He2. }
  destruct Hal as (Hids & Hlen & Hcap).
  destruct (addContext_Some T3 s) as (r & Hr & ->).
  destruct (existsb _ _) eqn:Hex.
  { apply existsb_same_turn in Hex.
    eapply query_live in Hex; [|intros l Hl; by apply Hids|done].
    rewrite Hitems in Hex. simpl in Hex. by destruct Hex as [->|[->|[]]]. }
  rewrite (addItem_valid T3 c3 e3 s Hc3 He3).
  destruct (evict_spec (Z.of_nat (length e3)) s Henc)
    as (n & Hev & Hn & Hstop & Hmin).
  rewrite Hitems in Hev, Hn, Hstop, Hmin.
  rewrite Hcur, Hmax in Hstop, Hmin. rewrite Hcur, Hmax in Hev.
  assert (Ht1 : tokenCount (content T1) = 2048%Z)
    by (unfold tokenCount; rewrite He1; lia).
  assert (n = 1) as ->.
  { destruct n as [|[|n]]; [|done|].
    - simpl in Hstop. destruct Hstop as [?|?]; [lia|done].
    - specialize (Hmin 1 ltac:(lia)). simpl in Hmin. lia. }
  rewrite Hev. simpl.
  destruct (add_known (index s) (fill e3 (replicate dimension 0%float)) 1)
    as [index' Hadd]; [apply Hids; rewrite Hitems; simpl; lia|].
  by rewrite Hadd.
Qed.

(** Once a store that never evicted holds as many turns as the index was
    initialised for, the insert of one more new turn is refused by the
    index; [addContext] returns all the same and the store is as before. *)
Lemma addContext_full s it c enc :
  accounted s -> aligned s ->
  content it = VString c -> encode (content it) = Some enc ->
  ~ In it (items s) ->
  (currentTokens s + Z.of_nat (length enc) <= maxTokens s)%Z ->
  length (items s) = 1000 ->
  snd (evict (Z.of_nat (length enc)) s) = s
  /\ addPoint (index s) (fill enc (replicate dimension 0%float)) (length (items s))
     = None
  /\ addContext (Some it) s = (Normal tt, s).
Proof.
  intros [Henc Hcur] (Hids & Hlen & Hmax) Hc Hit Hnew Hfit Hfull.
  assert (Hadd : addPoint (index s) (fill enc (replicate dimension 0%float))
                          (length (items s)) = None).
  { apply add_full; [intros ?%Hids; lia|lia]. }
  destruct (evict_spec (Z.of_nat (length enc)) s Henc)
    as (n & Hev & Hn & Hstop & Hmin).
  destruct n as [|n]; [|specialize (Hmin 0 ltac:(lia)); simpl in Hmin; lia].
  assert (Hs1 : snd (evict (Z.of_nat (length enc)) s) = s).
  { rewrite Hev. simpl. rewrite drop_0, Z.sub_0_r. by destruct s. }
  split; [done|]. split; [done|].
  destruct (addContext_Some it s) as (r & Hr & ->).
  destruct (existsb _ _) eqn:Hex; [done|].
  rewrite (addItem_valid it c enc s Hc Hit), Hs1, Hev. simpl. by rewrite Hadd.
Qed.

End IndexContract.

(** ** The reference index satisfies the contract *)

Module ReferenceFacts.
Import Reference.

Lemma has_label_In l ps : has_label l ps = true <-> In l (map fst ps).
Proof.
  unfold has_label. rewrite existsb_exists, in_map_iff. split.
  - intros (p & Hp & Heq). apply Nat.eqb_eq in Heq. by exists p.
  - intros (p & Heq & Hp). exists p. split; [done|]. by apply Nat.eqb_eq.
Qed.

Lemma set_label_ids l v ps : map fst (set_label l v ps) = map fst ps.
Proof.
  unfold set_label. rewrite map_map. apply map_ext. intros p.
  destruct (Nat.eqb p.1 l) eqn:Heq; [|done]. apply Nat.eqb_eq in Heq. done.
Qed.

Lemma scan_addPoint_ids idx v l idx' :
  scan_addPoint idx v l = Some idx' ->
  scan_max idx' = scan_max idx
  /\ map fst (scan_points idx')
     = if has_label l (scan_points idx) then map fst (scan_points idx)
       else map fst (scan_points idx) ++ [l].
Proof.
  unfold scan_addPoint. destruct (has_label l (scan_points idx)).
  - intros [= <-]. simpl. by rewrite set_label_ids.
  - destruct (Nat.leb _ _); [done|]. intros [= <-]. simpl. by rewrite map_app.
Qed.

Lemma insert_by_labels d l cs x :
  In x (map snd (insert_by d l cs)) <-> x = l \/ In x (map snd cs).
Proof.
  induction cs as [|c cs IH]; simpl; [intuition congruence|].
  destruct (PrimFloat.ltb d c.1); simpl; [intuition congruence|].
  rewrite IH. intuition congruence.
Qed.

Lemma ranked_labels q ps x :
  In x (map snd (ranked q ps)) -> In x (map fst ps).
Proof.
  unfold ranked.
  assert (H : forall acc,
             In x (map snd (foldl (fun cs p => insert_by (distance q p.2) p.1 cs)
                                  acc ps)) ->
             In x (map snd acc) \/ In x (map fst ps)).
  { induction ps as [|p ps IH]; intros acc; simpl; [by left|].
    intros [Hacc|Hps]%IH; [|by right; right].
    apply insert_by_labels in Hacc as [->|Hacc]; [by right; left|by left]. }
  intros [[]|Hin]%H. done.
Qed.

#[export] Instance scan_laws : HierarchicalNSWLaws scan.
Proof.
  split; simpl.
  - done.
  - done.
  - intros idx v l Hl%list_elem_of_In%has_label_In.
    unfold scan_addPoint. rewrite Hl. eauto.
  - intros idx v l. rewrite length_map. intros Hlen.
    unfold scan_addPoint. destruct (has_label _ _); [eauto|].
    destruct (Nat.leb _ _) eqn:Hle; [apply Nat.leb_le in Hle; lia|eauto].
  - intros idx v l Hl. rewrite length_map. intros Hlen.
    unfold scan_addPoint.
    destruct (has_label _ _) eqn:Hh;
      [by apply has_label_In, list_elem_of_In in Hh|].
    by apply Nat.leb_le in Hlen as ->.
  - intros idx v l idx' [_ Hids]%scan_addPoint_ids l'. rewrite Hids.
    destruct (has_label _ _) eqn:Hh.
    + apply has_label_In, list_elem_of_In in Hh. intuition congruence.
    + rewrite elem_of_app, list_elem_of_singleton. intuition congruence.
  - intros idx v l idx' [_ Hids]%scan_addPoint_ids Hl. rewrite Hids.
    destruct (has_label _ _) eqn:Hh;
      [by apply has_label_In, list_elem_of_In in Hh|].
    rewrite length_app. simpl. lia.
  - by intros idx v l idx' [Hmax _]%scan_addPoint_ids.
  - intros idx q k r. unfold scan_searchKnn.
    destruct (Nat.ltb _ _); [done|]. intros [= <-]. rewrite length_take. lia.
  - intros idx q k r. unfold scan_searchKnn.
    destruct (Nat.ltb _ _); [done|]. intros [= <-] l Hl.
    apply list_elem_of_In. eapply ranked_labels.
    apply list_elem_of_In. by eapply subseteq_take.
Qed.

(** Closed equations are decided by evaluation. *)
Ltac evaluate := vm_compute; reflexivity.

Lemma distinctb_NoDup l : distinctb l = true -> NoDup l.
Proof.
  induction l as [|x l IH]; simpl; [constructor|].
  intros [Hx Hl]%andb_true_iff. apply NoDup_cons. split; [|by apply IH].
  intros Hin%list_elem_of_In%existsb_same_turn. by rewrite Hin in Hx.
Qed.

(** *** Ids are positions: what a query resolves after an eviction *)

(** C1, id stability, on three long turns: [long_A] is stored under id 0
    and [long_B] under id 1; adding [long_C] evicts [long_A] and stores
    [long_C] under id 1 again.  The index then still holds the vector of
    [long_A] under id 0, and a query resolves that id to [long_B]: the
    id of an evicted turn surfaces, as another turn. *)
Theorem positional_ids_drift :
  (items after_long_A = [long_A] /\ getIdsList (index after_long_A) = [0])
  /\ (items after_long_B = [long_A; long_B]
      /\ getIdsList (index after_long_B) = [0; 1])
  /\ (items after_long_C = [long_B; long_C]
      /\ getIdsList (index after_long_C) = [0; 1])
  /\ (exists vA vC,
        textToVector (content long_A) = Normal vA
        /\ textToVector (content long_C) = Normal vC
        /\ scan_points (index after_long_C)
           = [(0, unit_vector vA); (1, unit_vector vC)]
        /\ searchKnn (index after_long_C) vC 2 = Some [1; 0])
  /\ getContext after_long_C (text 1500 "c") = Normal [long_C; long_B]
  /\ long_B <> long_A.
Proof.
  split; [split; evaluate|]. split; [split; evaluate|].
  split; [split; evaluate|].
  split.
  { eexists _, _. split; [evaluate|]. split; [evaluate|]. split; evaluate. }
  split; [evaluate|].
  intros H. apply (f_equal role) in H. discriminate H.
Qed.

(** C5, no live duplicates, on a conversation with an eviction: after
    [again_A], [again_B], [again_X] and the long [again_D], the turn
    [again_X] is live at position 0 while its vector sits under id 2; the
    query for its content resolves the two nearest ids, 2 and 1, to the
    placeholder and to [again_D], so adding [again_X] again stores it a
    second time. *)
Theorem duplicate_after_eviction :
  items after_again_D = [again_X; again_D]
  /\ content again_X = VString (text 50 "a")
  /\ getContext after_again_D (text 50 "a") = Normal [not_found; again_D]
  /\ items (snd (addContext (Some again_X) after_again_D))
     = [again_X; again_D; again_X]
  /\ currentTokens (snd (addContext (Some again_X) after_again_D)) = 4060%Z.
Proof.
  split; [evaluate|]. split; [evaluate|]. split; [evaluate|].
  split; evaluate.
Qed.

(** *** The store with a full index *)

Lemma thousand_run :
  let s := run initial (adds thousand) in
  accounted s /\ aligned s /\ items s = thousand
  /\ currentTokens s = 2000%Z /\ maxTokens s = 4096%Z.
Proof.
  intros s.
  assert (Hstr : Forall (fun it => exists c, content it = VString c) thousand).
  { apply Forall_forall. intros it (n & <- & _)%list_elem_of_In%in_map_iff.
    by eexists. }
  assert (Henc : encodable thousand).
  { apply Forall_forall. intros it (n & <- & _)%list_elem_of_In%in_map_iff.
    by eexists. }
  assert (Hheld : held thousand = 2000%Z) by evaluate.
  assert (Hnd : NoDup thousand) by (apply distinctb_NoDup; evaluate).
  assert (Hfit : (held thousand <= default_maxTokens)%Z)
    by (rewrite Hheld; unfold default_maxTokens; lia).
  assert (Hlen : length thousand <= 1000) by (apply Nat.leb_le; evaluate).
  destruct (run_adds_distinct thousand Hnd Hstr Henc Hfit Hlen) as [Hrun Hal].
  fold s in Hrun, Hal.
  assert (Hitems : items s = thousand) by (rewrite Hrun; reflexivity).
  assert (Hcur : currentTokens s = 2000%Z) by (rewrite Hrun; exact Hheld).
  assert (Hmax : maxTokens s = 4096%Z) by (rewrite Hrun; reflexivity).
  split; [split; [rewrite Hitems; exact Henc
                 |rewrite Hitems, Hcur; symmetry; exact Hheld]|].
  split; [exact Hal|]. split; [exact Hitems|]. split; [exact Hcur|exact Hmax].
Qed.

Lemma small_1000_new : ~ In (small 1000) thousand.
Proof.
  intros Hin%existsb_same_turn. revert Hin. vm_compute. discriminate.
Qed.

Lemma thousand_full :
  let s := run initial (adds thousand) in
  snd (evict 2 s) = s
  /\ addPoint (index s) (fill [38%Z; 33%Z] (replicate dimension 0%float))
              (length (items s)) = None
  /\ addContext (Some (small 1000)) s = (Normal tt, s).
Proof.
  intros s. destruct thousand_run as (Hacc & Hal & Hitems & Hcur & Hmax).
  fold s in Hacc, Hal, Hitems, Hcur, Hmax.
  assert (Hnew : ~ In (small 1000) (items s))
    by (rewrite Hitems; exact small_1000_new).
  apply (addContext_full s (small 1000) _ [38%Z; 33%Z] Hacc Hal
           eq_refl eq_refl Hnew).
  - rewrite Hcur, Hmax. simpl. lia.
  - rewrite Hitems. apply Nat.eqb_eq. evaluate.
Qed.

(** *** The claims on concrete conversations *)

(** C3, as stated, fails: once the module's store holds a thousand turns,
    the index refuses the point of the next new turn, and [addContext]
    completes normally instead of reporting the failure. *)
Lemma index_failure_not_reported :
  textToVector (content (small 1000))
  = Normal (fill [38%Z; 33%Z] (replicate dimension 0%float))
  /\ addPoint (index (run initial (adds thousand)))
              (fill [38%Z; 33%Z] (replicate dimension 0%float))
              (length (items (run initial (adds thousand)))) = None
  /\ fst (addContext (Some (small 1000)) (run initial (adds thousand))) = Normal tt
  /\ ~ (exists e, fst (addContext (Some (small 1000)) (run initial (adds thousand)))
                  = Throw e).
Proof.
  pose proof thousand_full as Hfull. cbv zeta in Hfull.
  destruct Hfull as (_ & Hadd & Hcall).
  split; [apply textToVector_encoded; reflexivity|].
  split; [exact Hadd|]. rewrite Hcall.
  split; [reflexivity|]. intros [e He]. discriminate He.
Qed.

Lemma addContext_index_failure_swallowed_witness :
  index (snd (evict 2 (run initial (adds thousand))))
  = index (run initial (adds thousand))
  /\ addContext (Some (small 1000)) (run initial (adds thousand))
     = (Normal tt, snd (evict 2 (run initial (adds thousand)))).
Proof.
  pose proof thousand_run as Hrun. pose proof thousand_full as Hfull.
  cbv zeta in Hrun, Hfull.
  generalize dependent (run initial (adds thousand)). intros s Hrun Hfull.
  destruct Hrun as ([Henc _] & (Hids & _) & Hitems & _).
  destruct Hfull as (Hs1 & Hadd & _).
  destruct (getRelevantContext_returns s (content (small 1000)) 5) as [ex Hex].
  assert (Hnew : ~ In (small 1000) ex).
  { intros Hin. apply small_1000_new. rewrite <- Hitems.
    eapply query_live; [|exact Hex|exact Hin].
    intros l Hl. apply Hids. exact Hl. }
  pose proof (addContext_index_failure_swallowed (small 1000) _ [38%Z; 33%Z] s ex
                Henc eq_refl eq_refl Hex Hnew) as H.
  cbv zeta in H. destruct H as (Hidx & _ & Hcall).
  split; [exact Hidx|]. rewrite Hcall.
  change (Z.of_nat (length [38%Z; 33%Z])) with 2%Z.
  rewrite Hs1, Hadd. reflexivity.
Defined.

Lemma fifo_eviction_witness :
  items (run initial (adds [half_1; half_2])) = [half_1; half_2]
  /\ items (run initial (adds [half_1; half_2; half_3])) = [half_2; half_3].
Proof.
  apply (proj2 (fifo_eviction (L:=scan_laws)) half_1 half_2 half_3 _ _ _ _ _ _
           eq_refl eq_refl eq_refl eq_refl eq_refl eq_refl).
  - evaluate.
  - evaluate.
  - evaluate.
  - intros H. apply (f_equal role) in H. discriminate H.
  - intros H. apply (f_equal content) in H. vm_compute in H. discriminate H.
  - intros H. apply (f_equal role) in H. discriminate H.
Defined.

Lemma textToVector_contract_witness :
  exists vector,
    textToVector (VString "2K") = Normal vector
    /\ length vector = dimension
    /\ vector !! 0 = Some 0.5%float
    /\ vector !! 1 = Some 0.75%float
    /\ vector !! 2 = Some 0%float
    /\ vector !! 1535 = Some 0%float.
Proof.
  destruct (textToVector_contract (VString "2K") [50%Z; 75%Z] eq_refl)
    as (vector & Hv & Hlen & Htok & Hzero).
  { repeat constructor; lia. }
  exists vector. split; [exact Hv|]. split; [exact Hlen|].
  split.
  { destruct (Htok 0 50%Z) as (x & Hx & Hval);
      [apply Nat.ltb_lt; evaluate|reflexivity|].
    rewrite Hx. f_equal. apply Prim2SF_inj. rewrite Hval. evaluate. }
  split.
  { destruct (Htok 1 75%Z) as (x & Hx & Hval);
      [apply Nat.ltb_lt; evaluate|reflexivity|].
    rewrite Hx. f_equal. apply Prim2SF_inj. rewrite Hval. evaluate. }
  split; apply Hzero; (apply Nat.leb_le || apply Nat.ltb_lt); evaluate.
Defined.

(** C9, as stated, fails for null and undefined: [addContext] does not
    return, it throws. *)
Lemma addContext_null_throws :
  addContext None initial = (Throw "TypeError", initial)
  /\ fst (addContext None initial) <> Normal tt.
Proof. split; [reflexivity|discriminate]. Qed.

Lemma addContext_invalid_argument_witness :
  snd (addContext (Some numeric) after_two) = after_two
  /\ fst (addContext (Some numeric) after_two) = Normal tt.
Proof.
  destruct (addContext_invalid_argument (Some numeric) after_two)
    as (Hsame & Hret & _).
  - intros it [= <-]. discriminate.
  - split; [exact Hsame|exact (Hret numeric eq_refl)].
Defined.

Lemma getRelevantContext_total_bounded_witness :
  exists r, getRelevantContext after_two (VString "!!") 7 = Normal r
            /\ length r <= 2.
Proof.
  destruct (getRelevantContext_total_bounded (@search_length scan scan_laws)
              after_two (VString "!!") 7) as (r & Hr & Hlen & _).
  exists r. split; [exact Hr|].
  replace (Nat.min 7 (length (items after_two))) with 2 in Hlen by evaluate.
  exact Hlen.
Defined.

End ReferenceFacts.

(** ** Further facts about the store, for any encoder and any index *)

Section MoreStoreFacts.

Context {E : Encoder} {I : HierarchicalNSW}.

#[local] Opaque dimension.

(** The shape of the store after [addItem]: the index is untouched and a
    suffix of the items is left, or one point was added under the label
    [length] of the suffix and the item was appended to it. *)
Lemma addItem_shape item s :
  let s' := snd (addItem item s) in
  (index s' = index s /\ exists n, items s' = drop n (items s))
  \/ exists it c v n,
      item = Some it /\ content it = VString c
      /\ addPoint (index s) v (length (drop n (items s))) = Some (index s')
      /\ items s' = drop n (items s) ++ [it].
Proof.
  intros s'. subst s'.
  destruct item as [it|];
    [|rewrite addItem_invalid; [left; split; [done|by exists 0]|done]].
  destruct (decide (typeof (content it) = "string")) as [Hty|Hty];
    [|rewrite addItem_invalid;
      [left; split; [done|by exists 0]|by intros ? [= <-]]].
  apply typeof_string in Hty as [c Hc].
  destruct (encode (content it)) as [enc|] eqn:Hit;
    [|rewrite addItem_unencodable; [left; split; [done|by exists 0]|done]].
  rewrite (addItem_valid it c enc s Hc Hit).
  destruct (evict_fields (Z.of_nat (length enc)) s) as (_ & Hidx & n & Hn).
  destruct (fst (evict _ s)); [|left; split; [done|by exists n]].
  destruct (addPoint _ _ _) as [index'|] eqn:Hadd; simpl.
  - right. exists it, c, (fill enc (replicate dimension 0%float)), n.
    rewrite Hidx, Hn in Hadd. by rewrite Hn.
  - left. split; [done|by exists n].
Qed.

Lemma addContext_shape item s :
  let s' := snd (addContext item s) in
  (index s' = index s /\ exists n, items s' = drop n (items s))
  \/ exists it c v n,
      item = Some it /\ content it = VString c
      /\ addPoint (index s) v (length (drop n (items s))) = Some (index s')
      /\ items s' = drop n (items s) ++ [it].
Proof.
  intros s'. subst s'.
  destruct (addContext_snd_cases item s) as [->| ->];
    [left; split; [done|by exists 0]|apply addItem_shape].
Qed.

(** X1, query results: every item that [getRelevantContext] returns is a
    live item or the placeholder "Context item not found". *)
Theorem query_results_live_or_placeholder (s : VectorStore) (query : Value) (k : nat) :
  exists r,
    getRelevantContext s query k = Normal r
    /\ Forall (fun x => x = not_found \/ In x (items s)) r.
Proof.
  destruct (getRelevantContext_cases s query k) as [H|(qv & nb & _ & _ & H)];
    rewrite H; eexists; (split; [done|]); [constructor|].
  apply Forall_forall. intros x (id & <- & _)%list_elem_of_In%in_map_iff.
  destruct (items s !! id) as [y|] eqn:Hy; simpl; [right|by left].
  apply list_elem_of_In. by eapply list_elem_of_lookup_2.
Qed.

(** X2, stored contents: after any sequence of calls on the module's store,
    the content of every live item is a string. *)
Theorem live_contents_are_strings (calls : list call) :
  Forall (fun it => exists c, content it = VString c) (items (run initial calls)).
Proof.
  assert (H : forall s,
    Forall (fun it => exists c, content it = VString c) (items s) ->
    Forall (fun it => exists c, content it = VString c) (items (run s calls))).
  { induction calls as [|c calls IH]; intros s Hs; [done|].
    simpl. apply IH. destruct c as [item|query|]; simpl; [|done|constructor].
    destruct (addContext_shape item s)
      as [(_ & n & ->)|(it & c & v & n & _ & Hc & _ & ->)].
    - by apply Forall_drop.
    - apply Forall_app. split; [by apply Forall_drop|].
      apply Forall_singleton. eauto. }
  apply H. constructor.
Qed.

(** X3, invariants of a created store: a store made by [createVectorStore]
    with any budget that is not negative keeps its budget, its token count
    and the budget invariant under any sequence of [addItem] calls, whatever
    the arguments. *)
Theorem addItem_sequence_invariants (m : Z) (args : list (option ContextItem)) :
  (0 <= m)%Z ->
  let s := foldl (fun s item => snd (addItem item s)) (createVectorStore m) args in
  maxTokens s = m /\ encodable (items s)
  /\ currentTokens s = held (items s)
  /\ ((currentTokens s <= maxTokens s)%Z \/ length (items s) = 1).
Proof.
  intros Hm.
  assert (H : forall s,
    maxTokens s = m /\ accounted s /\ within_budget s ->
    let s' := foldl (fun s item => snd (addItem item s)) s args in
    maxTokens s' = m /\ accounted s' /\ within_budget s').
  { induction args as [|item args IH]; intros s (Hmax & Hacc & Hb); [done|].
    simpl. apply IH. split; [by rewrite addItem_maxTokens|].
    split; [by apply addItem_accounted|].
    apply addItem_within_budget; [done|by rewrite Hmax|done]. }
  destruct (H (createVectorStore m)) as (Hmax & [Henc Hcur] & Hb).
  { split; [done|]. split; [split; [constructor|done]|]. by left. }
  done.
Qed.

(** X4, minimal eviction: [addItem] evicts the smallest number of oldest
    items after which the remaining ones and the new item fit the budget, or
    all of them when no number is enough. *)
Theorem eviction_is_minimal (it : ContextItem) (c : string) (enc : list Z)
    (s : VectorStore) :
  accounted s -> content it = VString c -> encode (content it) = Some enc ->
  exists n,
    n <= length (items s)
    /\ (items (snd (addItem (Some it) s)) = drop n (items s) ++ [it]
        \/ items (snd (addItem (Some it) s)) = drop n (items s))
    /\ ((held (drop n (items s)) + Z.of_nat (length enc) <= maxTokens s)%Z
        \/ n = length (items s))
    /\ forall m, m < n ->
         (maxTokens s < held (drop m (items s)) + Z.of_nat (length enc))%Z.
Proof.
  intros [Henc Hcur] Hc Hit.
  destruct (evict_spec (Z.of_nat (length enc)) s Henc)
    as (n & Hev & Hn & Hstop & Hmin).
  exists n. split; [done|]. split; [|split].
  - rewrite (addItem_valid it c enc s Hc Hit), Hev. simpl.
    destruct (addPoint _ _ _); simpl; [by left|by right].
  - destruct Hstop as [Hfit|Hnil].
    + left. pose proof (held_take_drop n (items s)). lia.
    + right. apply (f_equal length) in Hnil. rewrite length_drop in Hnil.
      simpl in Hnil. lia.
  - intros m Hm. specialize (Hmin m Hm).
    pose proof (held_take_drop m (items s)). lia.
Qed.

(** X5, no eviction when it fits: a turn that fits beside the live items,
    also when it fills the budget to the last token, is added without
    evicting anything; when the index refuses its point the store is left as
    it was. *)
Theorem fitting_turn_evicts_nothing (it : ContextItem) (c : string) (enc : list Z)
    (s : VectorStore) :
  accounted s -> content it = VString c -> encode (content it) = Some enc ->
  (currentTokens s + Z.of_nat (length enc) <= maxTokens s)%Z ->
  addItem (Some it) s
  = match addPoint (index s) (fill enc (replicate dimension 0%float))
                   (length (items s)) with
    | Some index' =>
        (Normal tt,
         {| maxTokens := maxTokens s; index := index';
            items := items s ++ [it];
            currentTokens := (currentTokens s + Z.of_nat (length enc))%Z |})
    | None => (Normal tt, s)
    end.
Proof.
  intros [Henc Hcur] Hc Hit Hfit.
  destruct (evict_spec (Z.of_nat (length enc)) s Henc)
    as (n & Hev & Hn & Hstop & Hmin).
  destruct n as [|n]; [|specialize (Hmin 0 ltac:(lia)); simpl in Hmin; lia].
  rewrite (addItem_valid it c enc s Hc Hit), Hev. simpl.
  rewrite !drop_0, Z.sub_0_r.
  destruct (addPoint _ _ _); [done|]. by destruct s.
Qed.

(** X6, oversized turn: a turn with more tokens than the whole budget evicts
    every live item; it is then stored alone, over budget, or, when the
    index refuses its point, nothing is left. *)
Theorem oversized_turn_alone (it : ContextItem) (c : string) (enc : list Z)
    (s : VectorStore) :
  accounted s -> content it = VString c -> encode (content it) = Some enc ->
  (maxTokens s < Z.of_nat (length enc))%Z ->
  addItem (Some it) s
  = match addPoint (index s) (fill enc (replicate dimension 0%float)) 0 with
    | Some index' =>
        (Normal tt,
         {| maxTokens := maxTokens s; index := index'; items := [it];
            currentTokens := Z.of_nat (length enc) |})
    | None =>
        (Normal tt,
         {| maxTokens := maxTokens s; index := index s; items := [];
            currentTokens := 0 |})
    end.
Proof.
  intros [Henc Hcur] Hc Hit Hbig.
  destruct (evict_spec (Z.of_nat (length enc)) s Henc)
    as (n & Hev & Hn & Hstop & _).
  pose proof (held_take_drop n (items s)) as Hsplit.
  pose proof (held_nonneg (drop n (items s))) as Hpos.
  destruct Hstop as [Hfit|Hnil]; [lia|].
  rewrite Hnil in Hsplit. simpl in Hsplit.
  rewrite (addItem_valid it c enc s Hc Hit), Hev. simpl. rewrite Hnil. simpl.
  replace (currentTokens s - held (take n (items s)))%Z with 0%Z by lia.
  by destruct (addPoint _ _ _).
Qed.

(** X7, encoder failure: a text the encoder refuses is never stored: the
    query for it returns nothing, [addContext] returns normally and the
    store is as before. *)
Theorem tokenization_failure_swallowed (it : ContextItem) (s : VectorStore) (k : nat) :
  encode (content it) = None ->
  getRelevantContext s (content it) k = Normal []
  /\ addContext (Some it) s = (Normal tt, s).
Proof.
  intros Henc.
  assert (Hq : forall k, getRelevantContext s (content it) k = Normal []).
  { intros k'. unfold getRelevantContext.
    destruct (Nat.eqb _ _); [done|]. by rewrite (textToVector_throws _ Henc). }
  split; [apply Hq|].
  destruct (addContext_Some it s) as (r & Hr & ->).
  rewrite Hq in Hr. injection Hr as <-. simpl.
  by apply addItem_unencodable.
Qed.

End MoreStoreFacts.

(** ** Further facts that rest on the contract of the index *)

Section MoreIndexContract.

Context {E : Encoder} {I : HierarchicalNSW} {L : HierarchicalNSWLaws I}.

#[local] Opaque dimension.

(** X8, the index only grows: the index never forgets a label: the points of
    evicted items stay. *)
Theorem index_never_forgets (item : option ContextItem) (s : VectorStore) (l : nat) :
  l ∈ getIdsList (index s) ->
  l ∈ getIdsList (index (snd (addContext item s))).
Proof.
  intros Hl.
  destruct (addContext_shape item s)
    as [[-> _]|(it & c & v & n & _ & _ & Hadd & _)]; [done|].
  apply (add_ids _ _ _ _ Hadd). by right.
Qed.

(** X9, add then query: distinct turns that fit the budget together, no more
    than the index can hold, are all live after being added in order, and a
    query then returns only turns among them. *)
Theorem distinct_turns_all_live (ts : list ContextItem) :
  NoDup ts ->
  Forall (fun it => exists c, content it = VString c) ts ->
  encodable ts ->
  (held ts <= default_maxTokens)%Z ->
  length ts <= 1000 ->
  items (run initial (adds ts)) = ts
  /\ currentTokens (run initial (adds ts)) = held ts
  /\ forall query k,
       exists r, getRelevantContext (run initial (adds ts)) query k = Normal r
                 /\ Forall (fun x => In x ts) r.
Proof.
  intros Hnd Hstr Henc Hfit Hlen.
  destruct (run_adds_distinct ts Hnd Hstr Henc Hfit Hlen) as [Hrun (Hids & _)].
  generalize dependent (run initial (adds ts)). intros s Hrun Hids.
  assert (Hitems : items s = ts) by (by rewrite Hrun).
  split; [done|]. split; [by rewrite Hrun|].
  intros query k.
  destruct (getRelevantContext_returns s query k) as [r Hr].
  exists r. split; [done|]. apply Forall_forall. intros x Hx%list_elem_of_In.
  rewrite <- Hitems. eapply query_live; [|exact Hr|exact Hx].
  intros l Hl. by apply Hids.
Qed.

(** X10, capacity boundary: once a store that never evicted holds as many
    turns as the index was initialised for, it stops growing: new turns that
    would fit the budget are dropped one after the other and the store stays
    as it is. *)
Theorem capacity_boundary (s : VectorStore) (ts : list ContextItem) :
  accounted s -> aligned s -> length (items s) = 1000 ->
  Forall (fun it =>
            (exists c, content it = VString c)
            /\ ~ In it (items s)
            /\ exists enc, encode (content it) = Some enc
                 /\ (currentTokens s + Z.of_nat (length enc) <= maxTokens s)%Z)
         ts ->
  run s (adds ts) = s.
Proof.
  intros Hacc Hal Hfull Hts.
  induction Hts as [|it ts ([c Hc] & Hnew & enc & Hit & Hfit) _ IH]; [done|].
  change (run s (adds (it :: ts)))
    with (run (snd (addContext (Some it) s)) (adds ts)).
  destruct (addContext_full s it c enc Hacc Hal Hc Hit Hnew Hfit Hfull)
    as (_ & _ & ->).
  exact IH.
Qed.

(** X11, bound on the live sequence: for an index that keeps its size when a
    known label is added again, the live sequence of the module's store
    never holds more items than the index was initialised for. *)
Theorem live_count_bounded
    (Hknown : forall idx v l idx',
        addPoint idx v l = Some idx' -> l ∈ getIdsList idx ->
        length (getIdsList idx') = length (getIdsList idx))
    (calls : list call) :
  length (items (run initial calls)) <= 1000.
Proof.
  set (P := fun s : VectorStore =>
    (forall l, l < length (items s) -> l ∈ getIdsList (index s))
    /\ length (getIdsList (index s)) <= getMaxElements (index s)
    /\ getMaxElements (index s) = 1000).
  assert (Hinit : P initial).
  { unfold P, initial, createVectorStore. simpl.
    rewrite init_ids, init_max. simpl. split; [lia|]. split; [lia|done]. }
  assert (Hstep : forall s c, P s -> P (step s c)).
  { intros s c (Hpos & Hlen & Hmax). destruct c as [item|query|]; simpl;
      [|done|exact Hinit].
    destruct (addContext_shape item s)
      as [(Hidx & n & Hn)|(it & c & v & n & _ & _ & Hadd & Hn)].
    - unfold P. rewrite Hidx, Hn. split; [|done].
      intros l Hl. rewrite length_drop in Hl. apply Hpos. lia.
    - unfold P. rewrite Hn, (add_max _ _ _ _ Hadd).
      split; [|split; [|done]].
      + intros l Hl. rewrite length_app in Hl. simpl in Hl.
        apply (add_ids _ _ _ _ Hadd).
        destruct (decide (l = length (drop n (items s)))) as [->|Hne];
          [by left|right].
        apply Hpos. rewrite length_drop in Hl, Hne. lia.
      + destruct (decide (length (drop n (items s)) ∈ getIdsList (index s)))
          as [Hin|Hnin].
        * by rewrite (Hknown _ _ _ _ Hadd Hin).
        * rewrite (add_ids_new _ _ _ _ Hadd Hnin).
          destruct (decide (getMaxElements (index s)
                            <= length (getIdsList (index s)))) as [Hle|Hgt];
            [|lia].
          by rewrite (add_full _ v _ Hnin Hle) in Hadd. }
  assert (Hrun : forall s, P s -> P (run s calls)).
  { induction calls as [|c calls IH]; intros s Hs; [done|].
    simpl. apply IH. by apply Hstep. }
  destruct (Hrun initial Hinit) as (Hpos & Hlen & Hmax).
  rewrite Hmax in Hlen.
  assert (Hsub : seq 0 (length (items (run initial calls)))
                 ⊆+ getIdsList (index (run initial calls))).
  { apply NoDup_submseteq; [apply NoDup_seq|].
    intros l Hl%elem_of_seq. apply Hpos. lia. }
  apply submseteq_length in Hsub. rewrite length_seq in Hsub. lia.
Qed.

(** X12, exact duplicate test on a small store: while nothing was evicted
    and at most five turns are live, adding a live turn again changes
    nothing, for an index whose search returns every point when asked for at
    least as many as it holds. *)
Theorem dedupe_exact_small_store
    (Hsome : forall idx q k,
        k <= getMaxElements idx -> is_Some (searchKnn idx q k))
    (Hall : forall idx q k r,
        searchKnn idx q k = Some r -> length (getIdsList idx) <= k ->
        forall l, l ∈ getIdsList idx -> l ∈ r)
    (it : ContextItem) (s : VectorStore) :
  accounted s -> aligned s -> length (items s) <= 5 -> In it (items s) ->
  addContext (Some it) s = (Normal tt, s).
Proof.
  intros [Henc _] (Hids & Hlen & Hmax) Hfive Hin.
  apply list_elem_of_In in Hin.
  destruct (proj1 (Forall_forall _ _) Henc it Hin) as [enc Hit].
  apply list_elem_of_lookup_1 in Hin as [p Hp].
  pose proof (lookup_lt_Some _ _ _ Hp) as Hlt.
  destruct (addContext_Some it s) as (r & Hr & ->).
  assert (Hfound : In it r); [|by apply existsb_same_turn in Hfound as ->].
  unfold getRelevantContext in Hr.
  destruct (Nat.eqb (length (items s)) 0) eqn:Hz;
    [apply Nat.eqb_eq in Hz; lia|].
  rewrite (textToVector_encoded _ _ Hit) in Hr.
  replace (Nat.min 5 (length (items s))) with (length (items s)) in Hr by lia.
  destruct (Hsome (index s) (fill enc (replicate dimension 0%float))
              (length (items s))) as [nb Hnb]; [lia|].
  rewrite Hnb in Hr. simpl in Hr. injection Hr as <-.
  apply in_map_iff. exists p. rewrite Hp. split; [done|].
  apply list_elem_of_In, (Hall _ _ _ _ Hnb); [lia|]. by apply Hids.
Qed.

(** X13, complete query on a small store: while nothing was evicted and at
    most five turns are live, [getContext] returns every live turn and no
    more items than are live, for an index whose search returns every point
    when asked for at least as many as it holds, and never more than asked
    for. *)
Theorem small_store_query_complete
    (Hsome : forall idx q k,
        k <= getMaxElements idx -> is_Some (searchKnn idx q k))
    (Hall : forall idx q k r,
        searchKnn idx q k = Some r -> length (getIdsList idx) <= k ->
        forall l, l ∈ getIdsList idx -> l ∈ r)
    (Hmost : forall idx q k r, searchKnn idx q k = Some r -> length r <= k)
    (query : string) (enc : list Z) (s : VectorStore) :
  aligned s -> length (items s) <= 5 -> encode (VString query) = Some enc ->
  exists r,
    getContext s query = Normal r
    /\ length r <= length (items s)
    /\ forall x, In x (items s) -> In x r.
Proof.
  intros (Hids & Hlen & Hmax) Hfive Henc.
  unfold getContext, getRelevantContext.
  destruct (Nat.eqb (length (items s)) 0) eqn:Hz.
  { apply Nat.eqb_eq in Hz. exists []. simpl. split; [done|]. split; [lia|].
    apply length_zero_iff_nil in Hz. rewrite Hz. by intros x []. }
  rewrite (textToVector_encoded _ _ Henc).
  replace (Nat.min 5 (length (items s))) with (length (items s)) by lia.
  destruct (Hsome (index s) (fill enc (replicate dimension 0%float))
              (length (items s))) as [nb Hnb]; [lia|].
  rewrite Hnb. simpl. eexists. split; [done|].
  split; [rewrite length_map; by eapply Hmost|].
  intros x [p Hp]%list_elem_of_In%list_elem_of_lookup_1.
  pose proof (lookup_lt_Some _ _ _ Hp) as Hlt.
  apply in_map_iff. exists p. rewrite Hp. split; [done|].
  apply list_elem_of_In, (Hall _ _ _ _ Hnb); [lia|]. by apply Hids.
Qed.

End MoreIndexContract.

(** ** The loading animation *)

Module GradientFacts.
Import Gradient.

Lemma referenceOf_length colors : length (referenceOf colors) = 3 * length colors.
Proof. unfold referenceOf. rewrite !length_app, length_rev. lia. Qed.

Lemma window_take_drop colors start :
  window colors start = take (length colors - 1) (drop start (referenceOf colors)).
Proof. unfold window, slice. f_equal. lia. Qed.

Lemma map_lookup {A B} (f : A -> B) (l : list A) (i : nat) :
  map f l !! i = f <$> (l !! i).
Proof.
  revert i. induction l as [|x l IH]; intros [|i]; simpl; auto.
Qed.

Lemma frame_lookup bgHex colors start :
  start < length colors * 2 ->
  framesOf bgHex colors !! start = Some (frame bgHex colors start).
Proof.
  intros Hs. unfold framesOf. rewrite map_lookup, lookup_seq_lt by done.
  done.
Qed.

(** X14, animation frames: for any list of [n] colours and any way of
    painting a cell there are [2 n] frames; frame [start] is the joined
    cells of the [n - 1] colours found from position [start] of the
    reference gradient, never fewer, so all frames have the same width; the
    first frame paints the colours in order and frame [n] paints them
    reversed (each without its last colour); the colours that would follow
    the last frame are those of the first, so the animation loops without
    a jump.  The module's own list gives 20 frames. *)
Theorem gradient_frames (bgHex : string -> string -> string) (colors : list string) :
  let n := length colors in
  let paint := fun cols => String.concat "" (map (fun g => bgHex g " ") cols) in
  length (framesOf bgHex colors) = 2 * n
  /\ framesOf bgHex colors
     = map (fun start => paint (take (n - 1) (drop start (referenceOf colors))))
           (seq 0 (2 * n))
  /\ Forall (fun start =>
               length (take (n - 1) (drop start (referenceOf colors))) = n - 1)
            (seq 0 (2 * n))
  /\ (colors <> [] ->
      framesOf bgHex colors !! 0 = Some (paint (take (n - 1) colors))
      /\ framesOf bgHex colors !! n = Some (paint (take (n - 1) (rev colors))))
  /\ take (n - 1) (drop (2 * n) (referenceOf colors))
     = take (n - 1) (drop 0 (referenceOf colors))
  /\ length (getGradientAnimFrames bgHex) = 20.
Proof.
  intros n paint.
  assert (H0 : window colors 0 = take (n - 1) colors).
  { rewrite window_take_drop, drop_0. unfold referenceOf.
    apply take_app_le. lia. }
  assert (Hn : window colors n = take (n - 1) (rev colors)).
  { rewrite window_take_drop. unfold referenceOf, n.
    rewrite drop_app_length. apply take_app_le. rewrite length_rev. lia. }
  assert (H2n : window colors (2 * n) = window colors 0).
  { rewrite H0, window_take_drop. unfold referenceOf, n.
    rewrite app_assoc, drop_app_length'
      by (rewrite length_app, length_rev; lia).
    done. }
  split; [unfold framesOf; rewrite length_map, length_seq; lia|].
  split.
  { unfold framesOf. replace (length colors * 2) with (2 * n) by (unfold n; lia).
    apply map_ext. intros start. unfold frame. by rewrite window_take_drop. }
  split.
  { apply Forall_forall. intros start Hs%elem_of_seq.
    rewrite length_take, length_drop, referenceOf_length. unfold n. lia. }
  split.
  { intros Hne. assert (0 < n) by (unfold n; destruct colors; simpl; [done|lia]).
    rewrite !frame_lookup by (unfold n in *; lia).
    unfold frame. fold n. by rewrite H0, Hn. }
  split; [unfold n in *; rewrite <- !window_take_drop; exact H2n|].
  unfold getGradientAnimFrames, framesOf. by rewrite length_map, length_seq.
Qed.

End GradientFacts.

(** ** Multi-line input *)

Module MultilineFacts.
Import Multiline.

Lemma append_assoc (a b c : string) :
  String.append (String.append a b) c = String.append a (String.append b c).
Proof.
  induction a as [|x a IH]; [reflexivity|].
  change (String x (String.append (String.append a b) c)
          = String x (String.append a (String.append b c))).
  by rewrite IH.
Qed.

Lemma append_empty_r (a : string) : String.append a "" = a.
Proof.
  induction a as [|x a IH]; [reflexivity|].
  change (String x (String.append a "") = String x a). by rewrite IH.
Qed.

Lemma handle_lines st lines :
  foldl handle st (map Line lines)
  = {| multilineInput := String.append (multilineInput st) (joined lines);
       resolved := resolved st |}.
Proof.
  revert st. induction lines as [|line lines IH]; intros st.
  - simpl. rewrite append_empty_r. by destruct st.
  - change (foldl handle st (map Line (line :: lines)))
      with (foldl handle (handle st (Line line)) (map Line lines)).
    rewrite IH. f_equal.
    change (multilineInput (handle st (Line line)))
      with (String.append (multilineInput st) (String.append line newline)).
    by rewrite !append_assoc.
Qed.

Lemma handle_resolved st events text :
  resolved st = Some text -> resolved (foldl handle st events) = Some text.
Proof.
  revert st. induction events as [|e events IH]; intros st Hst; [done|].
  simpl. apply IH. destruct e; simpl; [done|]. by rewrite Hst.
Qed.

(** X15, multi-line input: the promise of [promptMultilineInput] stays
    pending while lines come in, whatever they are: an empty line does not
    finish the input. It is resolved at the first close, with every line
    entered so far followed by a newline, and nothing that happens later
    changes the result. *)
Theorem multiline_resolves_on_close (lines : list string) (later : list event) :
  promptMultilineInput (map Line lines) = None
  /\ promptMultilineInput (map Line lines ++ Close :: later) = Some (joined lines).
Proof.
  unfold promptMultilineInput. split.
  - by rewrite handle_lines.
  - rewrite foldl_app, handle_lines. simpl. by apply handle_resolved.
Qed.

End MultilineFacts.

(** ** The further facts on the reference instances *)

Module MoreReferenceFacts.
Import Reference ReferenceFacts Samples.

(** The reference index keeps its size when a known label is added. *)
Lemma scan_add_known idx v l idx' :
  addPoint idx v l = Some idx' -> l ∈ getIdsList idx ->
  length (getIdsList idx') = length (getIdsList idx).
Proof.
  simpl. intros [_ Hids]%scan_addPoint_ids Hl%list_elem_of_In%has_label_In.
  by rewrite Hids, Hl.
Qed.

Lemma scan_search_some idx q k :
  k <= getMaxElements idx -> is_Some (searchKnn idx q k).
Proof.
  simpl. intros Hk. unfold scan_searchKnn.
  destruct (Nat.ltb (scan_max idx) k) eqn:Hlt; [apply Nat.ltb_lt in Hlt; lia|eauto].
Qed.

Lemma ranked_complete q ps :
  length (ranked q ps) = length ps
  /\ forall x, In x (map fst ps) -> In x (map snd (ranked q ps)).
Proof.
  unfold ranked.
  assert (Hins : forall d l cs, length (insert_by d l cs) = S (length cs)).
  { intros d l cs. induction cs as [|c cs IH]; simpl; [done|].
    destruct (PrimFloat.ltb d c.1); simpl; [done|]. by rewrite IH. }
  assert (H : forall acc,
    length (foldl (fun cs p => insert_by (distance q p.2) p.1 cs) acc ps)
    = length acc + length ps
    /\ forall x, In x (map snd acc) \/ In x (map fst ps) ->
         In x (map snd (foldl (fun cs p => insert_by (distance q p.2) p.1 cs)
                              acc ps))).
  { induction ps as [|p ps IH]; intros acc; simpl.
    - split; [lia|]. by intros x [?|[]].
    - destruct (IH (insert_by (distance q p.2) p.1 acc)) as [Hlen Hin].
      split; [rewrite Hlen, Hins; lia|].
      intros x Hx. apply Hin. rewrite insert_by_labels.
      destruct Hx as [?|[<-|?]]; auto. }
  destruct (H []) as [Hlen Hin]. split; [exact Hlen|].
  intros x Hx. apply Hin. by right.
Qed.

(** The reference search returns every point when asked for at least as
    many as the index holds. *)
Lemma scan_search_all idx q k r :
  searchKnn idx q k = Some r -> length (getIdsList idx) <= k ->
  forall l, l ∈ getIdsList idx -> l ∈ r.
Proof.
  simpl. unfold scan_searchKnn. destruct (Nat.ltb _ _); [done|].
  intros [= <-]. rewrite length_map. intros Hk l Hl%list_elem_of_In.
  destruct (ranked_complete (unit_vector q) (scan_points idx)) as [Hlen Hin].
  rewrite take_ge by (rewrite length_map, Hlen; lia).
  by apply list_elem_of_In, Hin.
Qed.

Lemma two_run :
  accounted after_two /\ aligned after_two
  /\ items after_two = [small 0; small 1].
Proof.
  destruct (run_adds_distinct [small 0; small 1]) as [Hrun Hal].
  - apply distinctb_NoDup. evaluate.
  - repeat constructor; by eexists.
  - repeat constructor; by eexists.
  - vm_compute. discriminate.
  - simpl. lia.
  - fold after_two in Hrun, Hal.
    destruct (run_invariant initial (adds [small 0; small 1]) initial_invariant)
      as (Hacc & _). fold after_two in Hacc.
    split; [exact Hacc|]. split; [exact Hal|]. by rewrite Hrun.
Qed.

Lemma addItem_sequence_invariants_witness :
  maxTokens ten_store = 10%Z /\ encodable (items ten_store)
  /\ currentTokens ten_store = held (items ten_store)
  /\ ((currentTokens ten_store <= maxTokens ten_store)%Z
      \/ length (items ten_store) = 1).
Proof.
  apply (addItem_sequence_invariants 10
           [Some (small 0); None; Some numeric; Some long_A]).
  lia.
Defined.

Lemma halves_run :
  accounted after_halves /\ items after_halves = [half_1; half_2]
  /\ maxTokens after_halves = 4096%Z.
Proof.
  destruct (run_invariant initial (adds [half_1; half_2]) initial_invariant)
    as (Hacc & _ & Hmax).
  split; [exact Hacc|]. split; [evaluate|exact Hmax].
Qed.

Lemma eviction_is_minimal_witness :
  (items (snd (addItem (Some half_3) after_halves)) = [half_2; half_3]
   \/ items (snd (addItem (Some half_3) after_halves)) = [half_2])
  /\ (maxTokens after_halves < held (items after_halves) + 2048)%Z
  /\ (held (drop 1 (items after_halves)) + 2048 <= maxTokens after_halves)%Z.
Proof.
  destruct halves_run as (Hacc & Hitems & Hmax).
  destruct (eviction_is_minimal half_3 _ _ after_halves Hacc eq_refl eq_refl)
    as (n & Hn & Hres & Hstop & Hmin).
  assert (H2 : held [half_1; half_2] = 4096%Z) by evaluate.
  assert (H1 : held [half_2] = 2048%Z) by evaluate.
  assert (H0 : held [] = 0%Z) by reflexivity.
  clear Hacc. revert n Hn Hres Hstop Hmin. revert Hitems Hmax.
  generalize after_halves. intros s Hitems Hmax. rewrite Hitems, Hmax.
  match goal with
  | |- context [Z.of_nat (length ?e)] =>
      replace (Z.of_nat (length e)) with 2048%Z by evaluate
  end.
  intros n Hn Hres Hstop Hmin.
  destruct n as [|[|[|n]]]; simpl in *.
  - destruct Hstop as [Hstop|Hstop]; [rewrite H2 in Hstop; lia|lia].
  - split; [exact Hres|].
    rewrite H2, H1. lia.
  - specialize (Hmin 1 ltac:(lia)). simpl in Hmin. rewrite H1 in Hmin. lia.
  - lia.
Defined.

Lemma oversized_turn_alone_witness :
  items (snd (addItem (Some huge) after_two)) = [huge]
  \/ items (snd (addItem (Some huge) after_two)) = [].
Proof.
  rewrite (oversized_turn_alone huge _ _ after_two (proj1 two_run)
             eq_refl eq_refl).
  - destruct (addPoint _ _ _); [by left|by right].
  - evaluate.
Defined.

Lemma tokenization_failure_swallowed_witness :
  getRelevantContext (E:=Strict.strict) initial (content with_special) 5
  = Normal []
  /\ addContext (E:=Strict.strict) (Some with_special) initial
     = (Normal tt, initial).
Proof.
  apply (tokenization_failure_swallowed (E:=Strict.strict)). evaluate.
Defined.

Lemma index_never_forgets_witness :
  0 ∈ getIdsList (index (snd (addContext (Some long_C) after_long_B))).
Proof.
  apply (index_never_forgets (L:=scan_laws)).
  replace (getIdsList (index after_long_B)) with [0; 1] by evaluate.
  apply list_elem_of_In. by left.
Defined.

Lemma distinct_turns_all_live_witness :
  items (run initial (adds [small 0; small 1])) = [small 0; small 1]
  /\ currentTokens (run initial (adds [small 0; small 1]))
     = held [small 0; small 1]
  /\ forall query k,
       exists r,
         getRelevantContext (run initial (adds [small 0; small 1])) query k
         = Normal r
         /\ Forall (fun x => In x [small 0; small 1]) r.
Proof.
  apply (distinct_turns_all_live (L:=scan_laws)).
  - apply distinctb_NoDup. evaluate.
  - repeat constructor; by eexists.
  - repeat constructor; by eexists.
  - vm_compute. discriminate.
  - simpl. lia.
Defined.

Lemma small_1001_new : ~ In (small 1001) thousand.
Proof.
  intros Hin%existsb_same_turn. revert Hin. vm_compute. discriminate.
Qed.

Lemma capacity_boundary_witness :
  run (run initial (adds thousand)) (adds [small 1000; small 1001])
  = run initial (adds thousand).
Proof.
  pose proof thousand_run as Hrun. cbv zeta in Hrun.
  generalize dependent (run initial (adds thousand)).
  intros s (Hacc & Hal & Hitems & Hcur & Hmax).
  apply (capacity_boundary (L:=scan_laws) s [small 1000; small 1001] Hacc Hal).
  - rewrite Hitems. apply Nat.eqb_eq. evaluate.
  - rewrite Hitems, Hcur, Hmax.
    constructor; [|constructor; [|constructor]].
    + split; [by eexists|]. split; [exact small_1000_new|].
      exists [38%Z; 33%Z]. split; [reflexivity|simpl; lia].
    + split; [by eexists|]. split; [exact small_1001_new|].
      exists [38%Z; 34%Z]. split; [reflexivity|simpl; lia].
Defined.

Lemma live_count_bounded_witness :
  length (items (run initial (adds [long_A; long_B; long_C]))) <= 1000.
Proof.
  exact (live_count_bounded (L:=scan_laws) scan_add_known
           (adds [long_A; long_B; long_C])).
Defined.

Lemma dedupe_exact_small_store_witness :
  addContext (Some (small 0)) after_two = (Normal tt, after_two).
Proof.
  destruct two_run as (Hacc & Hal & Hitems).
  apply (dedupe_exact_small_store scan_search_some
           scan_search_all (small 0) after_two Hacc Hal).
  - rewrite Hitems. simpl. lia.
  - rewrite Hitems. by left.
Defined.

Lemma fitting_turn_evicts_nothing_witness :
  items (snd (addItem (Some (small 2)) after_two)) = [small 0; small 1; small 2]
  \/ snd (addItem (Some (small 2)) after_two) = after_two.
Proof.
  destruct two_run as (Hacc & _ & Hitems).
  rewrite (fitting_turn_evicts_nothing (small 2) _ [33%Z; 35%Z] after_two Hacc
             eq_refl eq_refl).
  - destruct (addPoint _ _ _); [left|by right].
    change (items after_two ++ [small 2] = [small 0; small 1; small 2]).
    by rewrite Hitems.
  - replace (currentTokens after_two) with 4%Z by evaluate.
    replace (maxTokens after_two) with 4096%Z by evaluate. simpl. lia.
Defined.

Lemma small_store_query_complete_witness :
  exists r,
    getContext after_two "!!" = Normal r
    /\ length r <= length (items after_two)
    /\ forall x, In x (items after_two) -> In x r.
Proof.
  destruct two_run as (_ & Hal & Hitems).
  apply (small_store_query_complete scan_search_some scan_search_all
           (@search_length scan scan_laws) "!!" [33%Z; 33%Z] after_two Hal).
  - rewrite Hitems. simpl. lia.
  - reflexivity.
Defined.

End MoreReferenceFacts.
